(** * Drone gateway (drone.py): rolling statistics, listener, sender, queue
      flush and battery controller.

    The development follows src/drone.py function by function.

    Numbers.  Temperatures, humidities and averages are Python floats in the
    source.  They are modelled here as exact rationals [Q]: the order tests,
    the sum/length quotient and the rounding are the operations the source
    writes, read on exact values; IEEE-754 rounding error and the special
    values (NaN, infinities) are outside the model.  The statements
    therefore give an average only by the source's own expression,
    [py_sum window / py_len window], or relate it to another value the
    program holds; none of them equates it with the exact mean of the
    window, which the double quotient of the source need not equal.

    Environment.  The outcome of each network operation and the value of each
    [utc_now()] call are read from two tapes kept in the modelled world, so a
    statement quantified over all worlds covers every pattern of outcomes.

    Threads.  Each function is modelled as the sequential code it is.  Where
    a statement speaks of interleavings, the steps interleaved are whole
    calls (one reading through lines 159-164, one pass of the battery loop);
    finer interleavings of the listener workers, the battery thread and the
    GUI are not modelled. *)

From Stdlib Require Import QArith Qround Lqa ZArith Lia List Bool String Strings.Byte.
From Stdlib Require Import Ascii.
From Stdlib Require DecimalString DecimalZ.
From stdpp Require Import base option list gmap strings.

Local Open Scope Z_scope.

(* ===================================================================== *)
(** ** Thresholds and constants (drone.py, lines 24-25) *)

Definition TEMP_MIN : Q := 18.
Definition TEMP_MAX : Q := 27.
Definition HUM_MIN : Q := 30.
Definition HUM_MAX : Q := 60.

(** [deque(maxlen=10)] of the two windows. *)
Definition MAXLEN : nat := 10.

(* ===================================================================== *)
(** ** Python helpers used by [Stats] *)

(** [collections.deque(maxlen=n).append(x)]: the item is added on the right
    and, when the deque was already full, one item is discarded from the
    left. *)
Definition deque_append {A} (maxlen : nat) (d : list A) (x : A) : list A :=
  let d' := d ++ [x] in
  if (maxlen <? length d')%nat then tail d' else d'.

(** [sum(xs)]: left fold of [+] starting from [0]. *)
Definition py_sum (xs : list Q) : Q := fold_left Qplus xs 0%Q.

(** [len(xs)] as a number. *)
Definition py_len {A} (xs : list A) : Q := inject_Z (Z.of_nat (length xs)).

(** [ts[-8:]]: the last eight characters, or the whole string when it is
    shorter. *)
Definition last8 (ts : string) : string :=
  let n := String.length ts in
  String.substring (n - 8) 8 ts.

(** [lo <= x <= hi] *)
Definition between (lo x hi : Q) : bool := Qle_bool lo x && Qle_bool x hi.

(* ===================================================================== *)
(** ** class Stats (drone.py, lines 40-66) *)

Record Stats := mkStats {
  t : list Q;
  h : list Q;
  avg_t : Q;
  avg_h : Q;
  last : string;
  anom : nat
}.

(** [Stats.__init__] *)
Definition Stats_init : Stats :=
  {| t := []; h := []; avg_t := 0; avg_h := 0;
     last := "—"; anom := 0 |}.

(** The test of line 63. *)
Definition bad (tt hh : Q) : bool :=
  negb (between TEMP_MIN tt TEMP_MAX && between HUM_MIN hh HUM_MAX).

(** [Stats.add]: returns the updated object and the returned flag. *)
Definition add (self : Stats) (tt hh : Q) (ts : string) : Stats * bool :=
  let t' := deque_append MAXLEN (t self) tt in
  let h' := deque_append MAXLEN (h self) hh in
  let avg_t' := (py_sum t' / py_len t')%Q in
  let avg_h' := (py_sum h' / py_len h')%Q in
  let last' := last8 ts in
  let b := bad tt hh in
  ({| t := t'; h := h'; avg_t := avg_t'; avg_h := avg_h';
      last := last'; anom := if b then S (anom self) else anom self |}, b).

(** A run of [add] calls on one object, oldest reading first. *)
Definition reading : Type := Q * Q * string.
Definition temp_of (r : reading) : Q := r.1.1.
Definition hum_of (r : reading) : Q := r.1.2.

Definition add_all (self : Stats) (rs : list reading) : Stats :=
  fold_left (fun st r => fst (add st (temp_of r) (hum_of r) r.2)) rs self.

(* ===================================================================== *)
(** ** JSON values, as [json.loads] returns them *)

#[warnings="-register-all"]
Inductive json : Type :=
  | JNull
  | JBool (b : bool)
  | JInt (z : Z)
  | JFloat (q : Q)
  | JStr (s : string)
  | JArr (l : list json)
  | JObj (kvs : list (string * json)).

(** [j[key]] for a string key: only a dict can be indexed that way
    ([TypeError] otherwise) and the key has to be present ([KeyError]).
    [None] stands for the exception. *)
Fixpoint assoc (key : string) (kvs : list (string * json)) : option json :=
  match kvs with
  | [] => None
  | (k, v) :: rest => if String.eqb k key then Some v else assoc key rest
  end.

Definition getitem (j : json) (key : string) : option json :=
  match j with
  | JObj kvs => assoc key kvs
  | _ => None
  end.

(** Truth value of a JSON value ([if sid:]). *)
Definition truthy (j : json) : bool :=
  match j with
  | JNull => false
  | JBool b => b
  | JInt z => negb (z =? 0)
  | JFloat q => negb (Qeq_bool q 0)
  | JStr s => negb (String.eqb s "")
  | JArr l => negb (Nat.eqb (length l) 0)
  | JObj kvs => negb (Nat.eqb (length kvs) 0)
  end.

(* ===================================================================== *)
(** ** Packets, log events and the world *)

(** The dict built at lines 205-206. *)
Record packet := mkPacket {
  sensor_id : string;
  avg_temp : Q;
  avg_hum : Q;
  anomaly_count : nat;
  timestamp : string
}.

(** What is put on [log_queue]; the text of each message is abstracted to
    its kind and its data. *)
Inductive log_event : Type :=
  | LogReading (sid : string) (warn : bool) (tt hh : Q)
  | LogDisconnected (sid : json)
  | LogCentralOffline
  | LogCentralLost
  | LogQueuedSent
  | LogStillOffline
  | LogBatteryLow
  | LogBatteryFull.

(** Network operations against the central server, in the order they were
    attempted, each with its outcome. *)
Inductive net_op : Type :=
  | Connect (ok : bool)
  | Sendall (p : packet) (ok : bool)
  | Close.

Record world := mkWorld {
  sensors : gmap string Stats;
  log_queue : list log_event;        (* queue.Queue: put appends *)
  packet_queue : list packet;        (* the shared Python list *)
  sock : bool;                       (* make_sender's [sock is not None] *)
  charging_event : bool;
  listening_event : bool;
  stop_event : bool;
  net_tape : list bool;              (* outcomes of the coming network calls *)
  clock : list string;               (* values of the coming utc_now() calls *)
  net : list net_op;                 (* history of network operations *)
  built : list packet                (* history of packets built by send *)
}.

Definition set_sensors (f : gmap string Stats -> gmap string Stats) (w : world) :=
  mkWorld (f (sensors w)) (log_queue w) (packet_queue w) (sock w)
          (charging_event w) (listening_event w) (stop_event w)
          (net_tape w) (clock w) (net w) (built w).
Definition set_log_queue (f : list log_event -> list log_event) (w : world) :=
  mkWorld (sensors w) (f (log_queue w)) (packet_queue w) (sock w)
          (charging_event w) (listening_event w) (stop_event w)
          (net_tape w) (clock w) (net w) (built w).
Definition set_packet_queue (f : list packet -> list packet) (w : world) :=
  mkWorld (sensors w) (log_queue w) (f (packet_queue w)) (sock w)
          (charging_event w) (listening_event w) (stop_event w)
          (net_tape w) (clock w) (net w) (built w).
Definition set_sock (b : bool) (w : world) :=
  mkWorld (sensors w) (log_queue w) (packet_queue w) b
          (charging_event w) (listening_event w) (stop_event w)
          (net_tape w) (clock w) (net w) (built w).
Definition set_charging_event (b : bool) (w : world) :=
  mkWorld (sensors w) (log_queue w) (packet_queue w) (sock w)
          b (listening_event w) (stop_event w)
          (net_tape w) (clock w) (net w) (built w).
Definition set_listening_event (b : bool) (w : world) :=
  mkWorld (sensors w) (log_queue w) (packet_queue w) (sock w)
          (charging_event w) b (stop_event w)
          (net_tape w) (clock w) (net w) (built w).
Definition set_net_tape (tape : list bool) (w : world) :=
  mkWorld (sensors w) (log_queue w) (packet_queue w) (sock w)
          (charging_event w) (listening_event w) (stop_event w)
          tape (clock w) (net w) (built w).
Definition set_clock (c : list string) (w : world) :=
  mkWorld (sensors w) (log_queue w) (packet_queue w) (sock w)
          (charging_event w) (listening_event w) (stop_event w)
          (net_tape w) c (net w) (built w).
Definition set_net (f : list net_op -> list net_op) (w : world) :=
  mkWorld (sensors w) (log_queue w) (packet_queue w) (sock w)
          (charging_event w) (listening_event w) (stop_event w)
          (net_tape w) (clock w) (f (net w)) (built w).
Definition set_built (f : list packet -> list packet) (w : world) :=
  mkWorld (sensors w) (log_queue w) (packet_queue w) (sock w)
          (charging_event w) (listening_event w) (stop_event w)
          (net_tape w) (clock w) (net w) (f (built w)).

(** [log_queue.put(e)] and [packet_queue.append(p)]. *)
Definition log_put (e : log_event) : world -> world :=
  set_log_queue (fun q => q ++ [e]).
Definition queue_append (p : packet) : world -> world :=
  set_packet_queue (fun q => q ++ [p]).

(** The next outcome on the tape; an exhausted tape reads as failure. *)
Definition next_outcome (w : world) : bool * world :=
  match net_tape w with
  | [] => (false, w)
  | ok :: tape => (ok, set_net_tape tape w)
  end.

(** [socket.create_connection(...)]: [true] when it returns a socket. *)
Definition create_connection (w : world) : bool * world :=
  let (ok, w) := next_outcome w in
  (ok, set_net (fun n => n ++ [Connect ok]) w).

(** [s.sendall(message)]: [true] when it returns normally. *)
Definition sendall (p : packet) (w : world) : bool * world :=
  let (ok, w) := next_outcome w in
  (ok, set_net (fun n => n ++ [Sendall p ok]) w).

(** [s.close()] *)
Definition close : world -> world := set_net (fun n => n ++ [Close]).

(** [utc_now()]: the next value on the clock tape. *)
Definition utc_now (w : world) : string * world :=
  match clock w with
  | [] => (""%string, w)
  | now :: c => (now, set_clock c w)
  end.

(** Python's [round(x, 2)] on an exact rational: nearest multiple of 1/100,
    ties to the even one. *)
Definition round_half_even (x : Q) : Z :=
  let f := Qfloor x in
  match Qcompare (x - inject_Z f) (1 # 2) with
  | Lt => f
  | Gt => f + 1
  | Eq => if Z.even f then f else f + 1
  end.

Definition round2 (x : Q) : Q := Qmake (round_half_even (x * 100)) 100.

(* ===================================================================== *)
(** ** make_sender / send (drone.py, lines 196-227) *)

Definition send (sid : string) (avg_temp_ avg_hum_ : Q) (anomaly_count_ : nat)
    (w : world) : world :=
  let (now, w) := utc_now w in
  let pkt := {| sensor_id := sid; avg_temp := round2 avg_temp_;
                avg_hum := round2 avg_hum_; anomaly_count := anomaly_count_;
                timestamp := now |} in
  let w := set_built (fun b => b ++ [pkt]) w in
  if charging_event w then queue_append pkt w
  else
    (* with lock: *)
    let transmit (w : world) : world :=
      let (ok, w) := sendall pkt w in
      if ok then w
      else queue_append pkt (set_sock false (close (log_put LogCentralLost w))) in
    if sock w then transmit w
    else
      let (ok, w) := create_connection w in
      if ok then transmit (set_sock true w)
      else queue_append pkt (log_put LogCentralOffline w).

(* ===================================================================== *)
(** ** flush_queue (drone.py, lines 230-243) *)

(** One [with socket.create_connection(...) as s: s.sendall(...)] block:
    [true] when no exception left it.  The socket is closed on the way out
    whenever it had been opened. *)
Definition transmit_fresh (p : packet) (w : world) : bool * world :=
  let (ok, w) := create_connection w in
  if ok then
    let (ok', w) := sendall p w in (ok', close w)
  else (false, w).

(** The body of the [while packet_queue:] loop: the new world and whether
    the loop goes round again.  The loop only enters the body with a
    non-empty queue; on an empty one [pop(0)] would raise, which the first
    branch stands for. *)
Definition flush_body (w : world) : world * bool :=
  match packet_queue w with
  | [] => (w, false)
  | pkt :: rest =>
      let w := set_packet_queue (fun _ => rest) w in          (* pop(0) *)
      let (ok, w) := transmit_fresh pkt w in
      if ok then (log_put LogQueuedSent w, true)
      else (set_packet_queue (fun q => pkt :: q) (log_put LogStillOffline w),
            false)                                           (* insert(0, ..); break *)
  end.

(** The loop with a bound on the number of passes; the second component
    counts the packets popped.  [None]: the bound was too small. *)
Fixpoint flush_loop (fuel : nat) (w : world) : option (world * nat) :=
  match fuel with
  | O => None
  | S fuel =>
      match packet_queue w with
      | [] => Some (w, O)
      | _ :: _ =>
          let (w', again) := flush_body w in
          if again then
            match flush_loop fuel w' with
            | Some (w'', n) => Some (w'', S n)
            | None => None
            end
          else Some (w', 1%nat)
      end
  end.

(** [flush_queue]: the loop run with one pass per queued packet and one
    more for the final test ([flush_queue_fuel] shows this always
    suffices). *)
Definition flush_fuel (w : world) : nat := S (length (packet_queue w)).

Definition flush_queue (w : world) : world :=
  match flush_loop (flush_fuel w) w with
  | Some (w', _) => w'
  | None => w
  end.

(* ===================================================================== *)
(** ** battery (drone.py, lines 248-269) *)

Record battery_state := mkBattery {
  battery_level : Z;
  is_discharging : bool;
  gui_batt : Z                        (* the number shown by gui.batt *)
}.

(** State at thread start (lines 253-254); the GUI label starts at 100. *)
Definition battery_init : battery_state :=
  {| battery_level := 100; is_discharging := true; gui_batt := 100 |}.

(** One pass through the [while True:] loop, after the sleep. *)
Definition battery_tick (b : battery_state) (w : world) : battery_state * world :=
  let level := battery_level b + (if is_discharging b then -1 else 1) in
  if is_discharging b && (level <=? 15) then
    ({| battery_level := level; is_discharging := false; gui_batt := level |},
     log_put LogBatteryLow
       (set_charging_event true (set_listening_event false w)))
  else if negb (is_discharging b) && (100 <=? level) then
    ({| battery_level := level; is_discharging := true; gui_batt := level |},
     flush_queue
       (log_put LogBatteryFull
          (set_charging_event false (set_listening_event true w))))
  else
    ({| battery_level := level; is_discharging := is_discharging b;
        gui_batt := level |}, w).

Fixpoint battery_run (n : nat) (b : battery_state) (w : world)
    : battery_state * world :=
  match n with
  | O => (b, w)
  | S n => let (b', w') := battery_tick b w in battery_run n b' w'
  end.

(* ===================================================================== *)
(** ** listener / handle (drone.py, lines 135-166) *)

(** [line, buf = buf.split(b'\n', 1)] repeated while a newline is left:
    the complete lines of the buffer, in order, and the unterminated rest.
    [cur] holds the bytes of the current line, newest first. *)
Fixpoint frames_from (cur buf : list byte) : list (list byte) * list byte :=
  match buf with
  | [] => ([], rev cur)
  | c :: rest =>
      if Byte.eqb c x0a then
        let (ls, r) := frames_from [] rest in (rev cur :: ls, r)
      else frames_from (c :: cur) rest
  end.

Definition frames (buf : list byte) : list (list byte) * list byte :=
  frames_from [] buf.

(** What the worker keeps between lines: its [sid] variable and [buf]. *)
Record conn_state := mkConn {
  conn_sid : option json;             (* [None] is Python's None *)
  conn_buf : list byte
}.

Definition conn_init : conn_state := {| conn_sid := None; conn_buf := [] |}.

(** How far one line got. *)
Inductive line_result : Type :=
  | Dropped (sid : option json)
      (* an exception in the try block: [continue] *)
  | Handled (sid : option json) (w : world)
      (* the reading was recorded *)
  | Untyped
      (* the try block succeeded on a frame whose sensor_id or timestamp is
         not a JSON string.  Such frames are outside the model.  Python
         records the frame under a sensor_id that is null, a boolean or a
         number, and raises TypeError on a list or an object; it keeps a
         list timestamp, and on any other timestamp raises TypeError inside
         Stats.add, after both windows and averages were updated; an
         exception at this point leaves the worker.  [handle_lines] is
         [None] from such a frame on, and the statements speak of runs
         without one. *).

(** [float(n)] on an integer raises [OverflowError] when [n], rounded to
    the nearest double, does not fit: from the midpoint between the largest
    double, [2^1024 - 2^971], and [2^1024] on. *)
Definition FLOAT_INT_LIMIT : Z := 2 ^ 1024 - 2 ^ 970.

Section Listener.

(** [json.loads] on the bytes of one line; [None] when it raises. *)
Variable json_loads : list byte -> option json.
(** [float(s)] on a string; [None] when it raises. *)
Variable float_of_string : string -> option Q.

(** [float(v)] on a JSON value; [None] when it raises: [TypeError] on
    [None], a list or a dict, [ValueError] on a string that is not a
    numeral, [OverflowError] on an integer out of the range of a double. *)
Definition py_float (v : json) : option Q :=
  match v with
  | JInt z =>
      if Z.abs z <? FLOAT_INT_LIMIT then Some (inject_Z z) else None
  | JFloat q => Some q
  | JBool b => Some (if b then 1%Q else 0%Q)
  | JStr s => float_of_string s
  | JNull | JArr _ | JObj _ => None
  end.

(** The try block of lines 151-156.  The first component is the worker's
    [sid] afterwards: it is assigned as soon as line 153 succeeds, also
    when a later line of the block raises.  The second is [None] when the
    block raised. *)
Definition try_block (sid : option json) (line : list byte)
    : option json * option (json * Q * Q * json) :=
  match json_loads line with
  | None => (sid, None)
  | Some j =>
      match getitem j "sensor_id" with
      | None => (sid, None)
      | Some sid' =>
          match getitem j "temperature" ≫= py_float with
          | None => (Some sid', None)
          | Some tv =>
              match getitem j "humidity" ≫= py_float with
              | None => (Some sid', None)
              | Some hv =>
                  match getitem j "timestamp" with
                  | None => (Some sid', None)
                  | Some ts => (Some sid', Some (sid', tv, hv, ts))
                  end
              end
          end
      end
  end.

(** Lines 159-164, for a reading that came out of the try block. *)
Definition record_reading
    (send_avg : string -> Q -> Q -> nat -> world -> world)
    (sid : string) (tt hh : Q) (ts : string) (w : world) : world :=
  let st := default Stats_init (sensors w !! sid) in   (* setdefault *)
  let (st', warn) := add st tt hh ts in
  let w := set_sensors (fun m => <[sid := st']> m) w in
  let w := log_put (LogReading sid warn tt hh) w in
  if Nat.eqb (length (t st')) 10
  then send_avg sid (avg_t st') (avg_h st') (anom st') w
  else w.

(** One pass through the [while b'\n' in buf:] loop for one line. *)
Definition handle_line
    (send_avg : string -> Q -> Q -> nat -> world -> world)
    (sid : option json) (line : list byte) (w : world) : line_result :=
  match try_block sid line with
  | (sid', None) => Dropped sid'
  | (sid', Some (JStr s, tv, hv, JStr ts)) =>
      Handled sid' (record_reading send_avg s tv hv ts w)
  | (_, Some _) => Untyped
  end.

(** The lines of one buffer in order.  [None]: an [Untyped] frame was
    met. *)
Fixpoint handle_lines
    (send_avg : string -> Q -> Q -> nat -> world -> world)
    (sid : option json) (lines : list (list byte)) (w : world)
    : option (option json * world) :=
  match lines with
  | [] => Some (sid, w)
  | line :: more =>
      match handle_line send_avg sid line w with
      | Dropped sid' => handle_lines send_avg sid' more w
      | Handled sid' w' => handle_lines send_avg sid' more w'
      | Untyped => None
      end
  end.

(** One pass through the [while not stop_event.is_set() and ...] loop
    after [recv] returned the non-empty [data]. *)
Definition handle_data
    (send_avg : string -> Q -> Q -> nat -> world -> world)
    (c : conn_state) (data : list byte) (w : world)
    : option (conn_state * world) :=
  let (lines, rest) := frames (conn_buf c ++ data) in
  '(sid, w') ← handle_lines send_avg (conn_sid c) lines w;
  Some ({| conn_sid := sid; conn_buf := rest |}, w').

(** [handle(conn)]: [chunks] are the successive non-empty results of
    [recv]; after the last one the peer closes and [recv] returns [b""].
    The flags are read from the world before each [recv]. *)
Fixpoint handle_loop
    (send_avg : string -> Q -> Q -> nat -> world -> world)
    (c : conn_state) (chunks : list (list byte)) (w : world)
    : option (conn_state * world) :=
  match chunks with
  | [] => Some (c, w)
  | data :: more =>
      if negb (stop_event w) && listening_event w then
        match data with
        | [] => Some (c, w)
        | _ :: _ =>
            '(c', w') ← handle_data send_avg c data w;
            handle_loop send_avg c' more w'
        end
      else Some (c, w)
  end.

Definition handle
    (send_avg : string -> Q -> Q -> nat -> world -> world)
    (chunks : list (list byte)) (w : world) : option world :=
  '(c, w') ← handle_loop send_avg conn_init chunks w;
  Some (match conn_sid c with
        | Some sid => if truthy sid then log_put (LogDisconnected sid) w' else w'
        | None => w'
        end).

(** *** Kinds of lines, for the statements about the listener *)

(** Field [key] is absent from [j] (or [j] is not an object at all). *)
Definition missing (j : json) (key : string) : bool :=
  match getitem j key with None => true | Some _ => false end.

(** Field [key] is present but [float] does not accept its value. *)
Definition non_numeric (j : json) (key : string) : bool :=
  match getitem j key with
  | Some v =>
      match py_float v with None => true | Some _ => false end
  | None => false
  end.

(** A malformed line: it does not parse, or one of the four required
    fields is missing, or the temperature or the humidity is not
    numeric. *)
Definition malformed (line : list byte) : bool :=
  match json_loads line with
  | None => true
  | Some j =>
      missing j "sensor_id" || missing j "temperature"
      || missing j "humidity" || missing j "timestamp"
      || non_numeric j "temperature" || non_numeric j "humidity"
  end.

(** A line is recorded when it decodes to a reading of [sid]. *)
Definition decodes (sid : string) (line : list byte) (r : reading) : Prop :=
  exists j,
    json_loads line = Some j
    /\ getitem j "sensor_id" = Some (JStr sid)
    /\ getitem j "temperature" ≫= py_float = Some (temp_of r)
    /\ getitem j "humidity" ≫= py_float = Some (hum_of r)
    /\ getitem j "timestamp" = Some (JStr r.2).

End Listener.

(* ===================================================================== *)
(** ** main (drone.py, lines 286-292) *)

(** The shared objects as [main] creates them, for given environment
    tapes. *)
Definition main_world (tape : list bool) (times : list string) : world :=
  {| sensors := ∅; log_queue := []; packet_queue := []; sock := false;
     charging_event := false; listening_event := true; stop_event := false;
     net_tape := tape; clock := times; net := []; built := [] |}.

(* ===================================================================== *)
(** ** listener: the accept loop (drone.py, lines 168-191) *)

(** What [sock.accept()] does in one pass: it times out, returns a
    connection, or raises something else. *)
Inductive accept_result : Type :=
  | AcceptTimeout
  | AcceptConn (conn : nat)
  | AcceptError.

(** What one pass of the loop finds around it: the value of
    [listening_event] at its first test (line 170) and at its second (line
    177), since the battery thread may change it in between; whether
    creating and binding the socket succeeds; and what [accept] does. *)
Record pass_env := mkPassEnv {
  env_listening_1 : bool;
  env_listening_2 : bool;
  env_bind_ok : bool;
  env_accept : accept_result
}.

(** What the loop does that others can see: the two messages it puts on
    [log_queue] and the worker threads it starts.  They are kept in a trace
    of their own, in the order the loop produces them. *)
Inductive listener_event : Type :=
  | ListenerOn
  | ListenerPaused
  | WorkerStarted (conn : nat).

Record listener_state := mkListener {
  lsock : bool;                       (* [sock is not None] *)
  ltrace : list listener_event
}.

Definition listener_init : listener_state :=
  {| lsock := false; ltrace := [] |}.

(** One pass through [while not stop_event.is_set():].  [None]: an
    exception left the loop (binding failed, or [accept] raised something
    other than a timeout). *)
Definition listener_pass (e : pass_env) (s : listener_state)
    : option listener_state :=
  s1 ← (if env_listening_1 e && negb (lsock s) then
          if env_bind_ok e
          then Some {| lsock := true; ltrace := ltrace s ++ [ListenerOn] |}
          else None
        else Some s);
  let s2 := if negb (env_listening_2 e) && lsock s1
            then {| lsock := false; ltrace := ltrace s1 ++ [ListenerPaused] |}
            else s1 in
  if lsock s2 then
    match env_accept e with
    | AcceptConn c =>
        Some {| lsock := true; ltrace := ltrace s2 ++ [WorkerStarted c] |}
    | AcceptTimeout => Some s2
    | AcceptError => None
    end
  else Some s2.                                          (* time.sleep(0.1) *)

(** The passes made until [stop_event] is set, and the final close. *)
Fixpoint listener_run (envs : list pass_env) (s : listener_state)
    : option listener_state :=
  match envs with
  | [] => Some s
  | e :: envs' => s' ← listener_pass e s; listener_run envs' s'
  end.

Definition listener_loop (envs : list pass_env) : option listener_state :=
  s ← listener_run envs listener_init;
  Some {| lsock := false; ltrace := ltrace s |}.

(* ===================================================================== *)
(** ** GUI.refresh: the battery display (drone.py, lines 113-119) *)

(** [str(n)] for an integer: decimal digits, with a minus sign when
    negative. *)
Definition py_str_int (n : Z) : string :=
  DecimalString.NilZero.string_of_int (Z.to_int n).

(** The label the battery thread writes (line 258): [f"{battery_level}%"]. *)
Definition batt_text (level : Z) : string := py_str_int level ++ "%".

(** [s.split("%")[0]]: the text before the first percent sign, or all of
    [s] when it has none. *)
Fixpoint before_percent (s : string) : string :=
  match s with
  | EmptyString => EmptyString
  | String c s' =>
      if Ascii.eqb c "%"%char then EmptyString else String c (before_percent s')
  end.

(** The ASCII characters [int] strips from both ends of its argument:
    tab to carriage return, and the space. *)
Definition is_space (c : Ascii.ascii) : bool :=
  let n := Ascii.nat_of_ascii c in
  ((9 <=? n) && (n <=? 13) || (n =? 32))%nat.

Fixpoint lstrip (s : string) : string :=
  match s with
  | EmptyString => EmptyString
  | String c s' => if is_space c then lstrip s' else s
  end.

Fixpoint rstrip (s : string) : string :=
  match s with
  | EmptyString => EmptyString
  | String c s' =>
      match rstrip s' with
      | EmptyString => if is_space c then EmptyString else String c EmptyString
      | r => String c r
      end
  end.

(** [int(s)] on a string: surrounding whitespace is dropped, then an
    optional sign and at least one decimal digit are read.  [None] is
    [ValueError].  Digit-group underscores and characters outside ASCII are
    not modelled. *)
Definition py_int (s : string) : option Z :=
  match lstrip (rstrip s) with
  | String "+"%char digits =>
      option_map (fun d => Z.of_int (Decimal.Pos d))
                 (DecimalString.NilZero.uint_of_string digits)
  | body => option_map Z.of_int (DecimalString.NilZero.int_of_string body)
  end.

Inductive colour : Type := Green | Yellow | Red.

(** What lines 113-119 leave on the screen. *)
Record battery_view := mkBatteryView {
  pb_value : Z;                       (* self.pb["value"] *)
  bar_colour : colour;
  batt : string                       (* the label, self.batt *)
}.

(** Lines 113-119 for the label [label] found in [self.batt] and the value of
    [listening_event].  [None]: [int] raised. *)
Definition refresh_battery (label : string) (listening : bool)
    : option battery_view :=
  match py_int (before_percent label) with
  | None => None
  | Some level =>
      Some {| pb_value := level;
              bar_colour := if 50 <=? level then Green
                            else if 25 <=? level then Yellow else Red;
              batt := py_str_int level ++ "% ("
                      ++ (if listening then "RUNNING" else "CHARGING") ++ ")" |}
  end.

(** The label at start-up (line 77). *)
Definition batt_init : string := "100 %".

(* ===================================================================== *)
(** * Vocabulary of the statements *)

(** The readings of a run that [add] counted as anomalous. *)
Definition anomalies (rs : list reading) : nat :=
  length (List.filter (fun r => bad (temp_of r) (hum_of r)) rs).


(** What [send] does in a given world, read off the flags and the tape
    before the call. *)
Inductive send_case : Type :=
  | QueuedCharging        (* charging: queued without touching the network *)
  | ConnectFailed         (* running, no open socket, connecting fails *)
  | TransmitFailed        (* running, socket open or opened, sendall fails *)
  | Transmitted.          (* running, sendall succeeds *)

Definition send_outcome (w : world) : send_case :=
  if charging_event w then QueuedCharging
  else if sock w then
    match net_tape w with
    | true :: _ => Transmitted
    | _ => TransmitFailed
    end
  else
    match net_tape w with
    | true :: true :: _ => Transmitted
    | true :: _ => TransmitFailed
    | _ => ConnectFailed
    end.

Definition failed (c : send_case) : bool :=
  match c with
  | ConnectFailed | TransmitFailed => true
  | QueuedCharging | Transmitted => false
  end.

(** The packet [send] builds in world [w] for the given arguments. *)
Definition packet_of (sid : string) (a b : Q) (n : nat) (w : world) : packet :=
  {| sensor_id := sid; avg_temp := round2 a; avg_hum := round2 b;
     anomaly_count := n; timestamp := (utc_now w).1 |}.

(** The network operations [send] performs in each case. *)
Definition send_ops (w : world) (p : packet) : list net_op :=
  match send_outcome w with
  | QueuedCharging => []
  | ConnectFailed => [Connect false]
  | TransmitFailed =>
      (if sock w then [] else [Connect true]) ++ [Sendall p false; Close]
  | Transmitted =>
      (if sock w then [] else [Connect true]) ++ [Sendall p true]
  end.

(** A run of [send] calls, first call first. *)
Definition send_call : Type := string * Q * Q * nat.

Definition send1 (w : world) (c : send_call) : world :=
  send c.1.1.1 c.1.1.2 c.1.2 c.2 w.

Definition send_calls (cs : list send_call) (w : world) : world :=
  fold_left send1 cs w.

(** The call a packet was built for, after rounding. *)
Definition call_of (p : packet) : send_call :=
  (sensor_id p, avg_temp p, avg_hum p, anomaly_count p).

Definition rounded (c : send_call) : send_call :=
  (c.1.1.1, round2 c.1.1.2, round2 c.1.2, c.2).

(** Every call of the run finds the sender in a failing case. *)
Fixpoint all_failed (cs : list send_call) (w : world) : bool :=
  match cs with
  | [] => true
  | c :: cs' => failed (send_outcome w) && all_failed cs' (send1 w c)
  end.

(** The packets whose [sendall] returned normally, in order. *)
Fixpoint delivered (ops : list net_op) : list packet :=
  match ops with
  | [] => []
  | Sendall p true :: ops' => p :: delivered ops'
  | _ :: ops' => delivered ops'
  end.

(** The number of connection attempts. *)
Fixpoint connects (ops : list net_op) : nat :=
  match ops with
  | [] => O
  | Connect _ :: ops' => S (connects ops')
  | _ :: ops' => connects ops'
  end.

(** How one attempt of the flush routine ends, read off the tape at its
    start: the connect takes the first outcome and, when that is a success,
    the [sendall] takes the second; the attempt succeeds when both do. *)
Definition attempt_ok (tape : list bool) : bool :=
  match tape with
  | true :: true :: _ => true
  | _ => false
  end.

(** The network operations of a successful attempt for packet [p]. *)
Definition delivery (p : packet) : list net_op :=
  [Connect true; Sendall p true; Close].

(** The network operations of a failed attempt for packet [p]: the connect
    fails, or it succeeds and the [sendall] fails. *)
Definition failed_attempt (tape : list bool) (p : packet) : list net_op :=
  match tape with
  | true :: _ => [Connect true; Sendall p false; Close]
  | _ => [Connect false]
  end.

(** The number of queued packets in front of the first one whose attempt
    fails, each attempt reading two outcomes of the tape. *)
Fixpoint flush_count (tape : list bool) (q : list packet) {struct q} : nat :=
  match q with
  | [] => O
  | _ :: q' =>
      match tape with
      | true :: true :: tape' => S (flush_count tape' q')
      | _ => O
      end
  end.

(** The parts of the world the flush routine never writes. *)
Definition same_outside_flush (w w' : world) : Prop :=
  sensors w' = sensors w /\ sock w' = sock w
  /\ charging_event w' = charging_event w
  /\ listening_event w' = listening_event w
  /\ stop_event w' = stop_event w
  /\ clock w' = clock w /\ built w' = built w.

(** What holds between two ticks of the battery thread. *)
Definition battery_inv (b : battery_state) (w : world) : Prop :=
  (if is_discharging b
   then 16 <= battery_level b <= 100
   else 15 <= battery_level b <= 99)
  /\ listening_event w = is_discharging b
  /\ charging_event w = negb (is_discharging b).

(** The readings of one sensor passing through lines 159-164 in order, with
    [send] as the [send_avg] callback, as [main] wires it. *)
Definition feed (sid : string) (rs : list reading) (w : world) : world :=
  fold_left
    (fun w r => record_reading send sid (temp_of r) (hum_of r) r.2 w) rs w.


(** A malformed line as the specification words it: the line does not
    parse, a required field is missing, or the temperature or the humidity
    is not a number.  [malformed] above is what the code tests instead:
    whether [float] raises on the value. *)
Definition json_number (v : json) : bool :=
  match v with
  | JInt _ | JFloat _ => true
  | _ => false
  end.

Definition not_a_number (j : json) (key : string) : bool :=
  match getitem j key with
  | Some v => negb (json_number v)
  | None => false
  end.

Definition malformed_as_stated (json_loads : list byte -> option json)
    (line : list byte) : bool :=
  match json_loads line with
  | None => true
  | Some j =>
      missing j "sensor_id" || missing j "temperature"
      || missing j "humidity" || missing j "timestamp"
      || not_a_number j "temperature" || not_a_number j "humidity"
  end.

(** The values [float] raises on. *)
Definition float_raises (float_of_string : string -> option Q) (v : json)
    : Prop :=
  match v with
  | JNull | JArr _ | JObj _ => True
  | JStr s => float_of_string s = None
  | JInt z => FLOAT_INT_LIMIT <= Z.abs z
  | JBool _ | JFloat _ => False
  end.

(* ===================================================================== *)
(** * Worked inputs *)

Definition C4_world : world :=
  mkWorld ∅ [] [] false true false false [true; true] ["t0"; "t1"]%string [] [].

Definition C5_world : world :=
  mkWorld ∅ [] [] true false true false [false; true; true] ["t0"; "t1"]%string
          [] [].

Definition C9_world : world :=
  mkWorld ∅ [] [] false false true false [false; false; false; true; true]
          ["t0"; "t1"; "t2"; "t3"]%string [] [].

Definition C9_calls : list send_call :=
  [("s1"%string, 21%Q, 40%Q, 0%nat); ("s2"%string, 22%Q, 41%Q, 1%nat);
   ("s1"%string, 23%Q, 42%Q, 0%nat)].

Definition flush_packets : list packet :=
  [mkPacket "s1" 21 40 0 "t0"; mkPacket "s2" 22 41 1 "t1";
   mkPacket "s1" 23 42 0 "t2"].

(** Three queued packets; the first goes through, sending the second
    fails. *)
Definition flush_world : world :=
  mkWorld ∅ [] flush_packets false false true false [true; true; true; false; true]
          [] [] [].

Definition C1_ts : string := "2025-05-01T10:00:00.000000Z".

(** Ten readings: nine at 20 degrees, then one at 20.125. *)
Definition C1_readings : list reading :=
  replicate 9 (20%Q, 40%Q, C1_ts) ++ [(Qmake 161 8, 40%Q, C1_ts)].

Definition C1_eleventh : reading := (20%Q, 40%Q, C1_ts).


(** A stand-in for [json.loads] that knows three one-byte lines: [g], a good
    reading of sensor s1; [n], the same frame with a null temperature; and
    [m], the same frame without its humidity.  Every other line fails to
    parse. *)
Definition demo_loads (line : list byte) : option json :=
  match line with
  | [x67] =>
      Some (JObj [("sensor_id", JStr "s1"); ("temperature", JFloat 21);
                  ("humidity", JInt 40); ("timestamp", JStr C1_ts)]%string)
  | [x6e] =>
      Some (JObj [("sensor_id", JStr "s1"); ("temperature", JNull);
                  ("humidity", JInt 40); ("timestamp", JStr C1_ts)]%string)
  | [x6d] =>
      Some (JObj [("sensor_id", JStr "s1"); ("temperature", JFloat 21);
                  ("timestamp", JStr C1_ts)]%string)
  | _ => None
  end.

(** A stand-in for [float] on strings that rejects every string. *)
Definition demo_float (s : string) : option Q := None.

(** [demo_loads] with two more lines: [b], the good frame with the JSON
    value [true] as its temperature, and [s], the good frame with the JSON
    string "21.5" as its temperature. *)
Definition lenient_loads (line : list byte) : option json :=
  match line with
  | [x62] =>
      Some (JObj [("sensor_id", JStr "s1"); ("temperature", JBool true);
                  ("humidity", JInt 40); ("timestamp", JStr C1_ts)]%string)
  | [x73] =>
      Some (JObj [("sensor_id", JStr "s1"); ("temperature", JStr "21.5");
                  ("humidity", JInt 40); ("timestamp", JStr C1_ts)]%string)
  | _ => demo_loads line
  end.

(** A stand-in for [float] on strings that knows the numeral "21.5". *)
Definition numeral_float (s : string) : option Q :=
  if String.eqb s "21.5" then Some (Qmake 43 2) else None.

(* ===================================================================== *)
(** * Vocabulary of the further properties *)

(** Readings of several sensors passing through lines 159-164 in arrival
    order, each tagged with its sensor id. *)
Definition tagged : Type := string * reading.

Definition feed_all (rs : list tagged) (w : world) : world :=
  fold_left
    (fun w r => record_reading send r.1 (temp_of r.2) (hum_of r.2) r.2.2 w)
    rs w.

(** The readings of [sid] among tagged readings, in order. *)
Definition readings_of (sid : string) (rs : list tagged) : list reading :=
  map snd (List.filter (fun r => String.eqb r.1 sid) rs).

(** The bytes of complete lines put back on the wire: each followed by its
    newline. *)
Definition unframe (lines : list (list byte)) : list byte :=
  concat (map (fun l => l ++ [x0a]) lines).

(** Every call of the run finds the sender running with the collector
    reachable. *)
Fixpoint all_sent (cs : list send_call) (w : world) : bool :=
  match cs with
  | [] => true
  | c :: cs' =>
      match send_outcome w with Transmitted => true | _ => false end
      && all_sent cs' (send1 w c)
  end.

(** What the threads do to the shared objects, one step at a time: a
    reading of some sensor reaches lines 159-164 of a connection worker, or
    the battery thread makes one pass of its loop. *)
Inductive action : Type :=
  | ActReading (sid : string) (r : reading)
  | ActTick.

Definition system : Type := battery_state * world.

Definition act (a : action) (s : system) : system :=
  match a with
  | ActReading sid r =>
      (s.1, record_reading send sid (temp_of r) (hum_of r) r.2 s.2)
  | ActTick => battery_tick s.1 s.2
  end.

(** Any sequence of such steps, first step first. *)
Definition run (acts : list action) (s : system) : system :=
  fold_left (fun s a => act a s) acts s.

(** The gateway as [battery] and [main] start it. *)
Definition boot (tape : list bool) (times : list string) : system :=
  (battery_init, main_world tape times).

(** The anomaly counts never go down from an earlier packet to a later one
    of the same sensor. *)
Definition counts_monotone (ps : list packet) : Prop :=
  forall i j p q,
    (i <= j)%nat -> ps !! i = Some p -> ps !! j = Some q ->
    sensor_id p = sensor_id q ->
    (anomaly_count p <= anomaly_count q)%nat.

(** The number of battery ticks among some steps. *)
Definition ticks (acts : list action) : nat :=
  length (List.filter (fun a => match a with ActTick => true | _ => false end)
            acts).

(** The battery state [n] ticks after the start: 85 ticks down from 100 to
    15, 85 ticks up again, and so on with period 170. *)
Definition battery_phase (n : nat) : battery_state :=
  let m := Z.of_nat n mod 170 in
  if m <? 85
  then {| battery_level := 100 - m; is_discharging := true;
          gui_batt := 100 - m |}
  else {| battery_level := m - 70; is_discharging := false;
          gui_batt := m - 70 |}.

(** A running gateway without a socket and with the collector reachable. *)
Definition reuse_world : world :=
  mkWorld ∅ [] [] false false true false [true; true; true; true]
          ["t0"; "t1"; "t2"]%string [] [].

(** Three queued packets and a collector that accepts all of them. *)
Definition flush_up_world : world :=
  mkWorld ∅ [] flush_packets false false true false
          [true; true; true; true; true; true; false] [] [] [].

(** No packet is lost or duplicated: the packets built so far are, as a
    multiset, those delivered to the collector together with those waiting in
    the queue. *)
Definition conserved (w : world) : Prop :=
  built w ≡ₚ delivered (net w) ++ packet_queue w.

(** Every built packet belongs to a sensor of the table whose counter is at
    least the packet's. *)
Definition counts_bounded (w : world) : Prop :=
  forall p, p ∈ built w ->
    exists st, sensors w !! sensor_id p = Some st
               /\ (anomaly_count p <= anom st)%nat.

(** A charging gateway with an empty queue and the collector reachable. *)
Definition charged_world : world :=
  mkWorld ∅ [] [] false true false false [true; true; true; true; true; true]
          ["t0"; "t1"; "t2"]%string [] [].

(** The connections for which a worker was started, in order. *)
Definition started (tr : list listener_event) : list nat :=
  omap (fun ev => match ev with WorkerStarted c => Some c | _ => None end) tr.

(** The "on" and "paused" messages, in order. *)
Definition switches (tr : list listener_event) : list listener_event :=
  List.filter (fun ev => match ev with WorkerStarted _ => false | _ => true end)
    tr.

(** The connection a pass is offered while the listener is enabled. *)
Definition offered (e : pass_env) : option nat :=
  if env_listening_2 e
  then match env_accept e with AcceptConn c => Some c | _ => None end
  else None.

(** The messages that follow the changes of a flag, starting from [prev]. *)
Fixpoint toggles (prev : bool) (flags : list bool) : list listener_event :=
  match flags with
  | [] => []
  | f :: flags' =>
      (if Bool.eqb f prev then []
       else [if f then ListenerOn else ListenerPaused])
      ++ toggles f flags'
  end.

(** The flag does not change between the two tests of a pass. *)
Definition steady (e : pass_env) : Prop :=
  env_listening_1 e = env_listening_2 e.

(** Five passes: enabled with a connection, enabled with a timeout,
    disabled while a peer knocks, disabled, enabled again with a
    connection. *)
Definition listener_passes : list pass_env :=
  [mkPassEnv true true true (AcceptConn 1);
   mkPassEnv true true true AcceptTimeout;
   mkPassEnv false false true (AcceptConn 2);
   mkPassEnv false false true AcceptTimeout;
   mkPassEnv true true true (AcceptConn 3)].

(** Every character of a string passes a test. *)
Fixpoint all_chars (P : Ascii.ascii -> bool) (s : string) : bool :=
  match s with
  | EmptyString => true
  | String c s' => P c && all_chars P s'
  end.

(** The characters [str] writes for an integer: the digits and the minus
    sign. *)
Definition numeral_char (c : Ascii.ascii) : bool :=
  let n := Ascii.nat_of_ascii c in
  ((48 <=? n) && (n <=? 57) || (n =? 45))%nat.

(** A table entry in step with its windows: both windows equally long,
    holding between one and ten items, and each average the sum of its
    window over its length. *)
Definition good_stats (st : Stats) : Prop :=
  length (t st) = length (h st)
  /\ (1 <= length (t st) <= 10)%nat
  /\ avg_t st = (py_sum (t st) / py_len (t st))%Q
  /\ avg_h st = (py_sum (h st) / py_len (h st))%Q.

(** The sensor of a packet has an entry with a full window. *)
Definition from_full_window (w : world) (p : packet) : Prop :=
  exists st, sensors w !! sensor_id p = Some st
             /\ length (t st) = 10%nat /\ length (h st) = 10%nat.

(** The sensor id a line carries, when the line parses and has one. *)
Definition line_sid (json_loads : list byte -> option json)
    (line : list byte) : option json :=
  match json_loads line with
  | Some j => getitem j "sensor_id"
  | None => None
  end.

(** The packets of one sensor among some packets, in order. *)
Definition of_sensor (sid : string) (ps : list packet) : list packet :=
  List.filter (fun p => String.eqb (sensor_id p) sid) ps.

(** The calls of [send_avg] that the readings [rs] of sensor [sid] cause
    when its entry starts as [st]: one for each reading that leaves the
    window full. *)
Fixpoint summaries (sid : string) (st : Stats) (rs : list reading)
    : list send_call :=
  match rs with
  | [] => []
  | r :: rs' =>
      let st' := (add st (temp_of r) (hum_of r) r.2).1 in
      (if Nat.eqb (length (t st')) 10
       then [(sid, avg_t st', avg_h st', anom st')] else [])
      ++ summaries sid st' rs'
  end.

(* ===================================================================== *)
(** * Properties *)

(* ===================================================================== *)
(** ** The windows of [Stats] *)

Lemma tail_drop {A} (m : nat) (k : list A) : tail (drop m k) = drop (S m) k.
Proof.
  revert k. induction m as [|m IH]; intros [|a k]; simpl; try reflexivity.
  apply IH.
Qed.

(** Appending to the window that holds the last [n] items of [l] gives the
    window that holds the last [n] items of [l ++ [x]]. *)
Lemma deque_append_drop {A} (n : nat) (l : list A) x :
  (0 < n)%nat ->
  deque_append n (drop (length l - n) l) x =
  drop (length (l ++ [x]) - n) (l ++ [x]).
Proof.
  intros Hn. unfold deque_append.
  rewrite !length_app, length_drop. simpl.
  destruct (Nat.ltb_spec n (length l - (length l - n) + 1)) as [Hlt|Hge].
  - assert (Hl : (n <= length l)%nat) by lia.
    replace (length l + 1 - n)%nat with (S (length l - n)) by lia.
    rewrite <- (drop_app_le l [x] (length l - n)) by lia.
    apply tail_drop.
  - replace (length l - n)%nat with 0%nat by lia.
    replace (length l + 1 - n)%nat with 0%nat by lia.
    reflexivity.
Qed.

Lemma add_all_snoc self rs r :
  add_all self (rs ++ [r]) =
  fst (add (add_all self rs) (temp_of r) (hum_of r) r.2).
Proof. unfold add_all. rewrite fold_left_app. reflexivity. Qed.

(** After any run from a fresh object the windows hold the last ten
    temperatures and humidities, oldest first. *)
Lemma window_t rs :
  t (add_all Stats_init rs) = drop (length rs - MAXLEN) (map temp_of rs).
Proof.
  induction rs as [|r rs IH] using rev_ind; [reflexivity|].
  rewrite add_all_snoc. simpl. rewrite IH, map_app. simpl.
  rewrite <- (length_map temp_of rs), <- (length_map temp_of (rs ++ [r])).
  rewrite map_app. simpl. apply deque_append_drop. unfold MAXLEN. lia.
Qed.

Lemma window_h rs :
  h (add_all Stats_init rs) = drop (length rs - MAXLEN) (map hum_of rs).
Proof.
  induction rs as [|r rs IH] using rev_ind; [reflexivity|].
  rewrite add_all_snoc. simpl. rewrite IH, map_app. simpl.
  rewrite <- (length_map hum_of rs), <- (length_map hum_of (rs ++ [r])).
  rewrite map_app. simpl. apply deque_append_drop. unfold MAXLEN. lia.
Qed.

Lemma window_t_length rs :
  length (t (add_all Stats_init rs)) = Nat.min (length rs) MAXLEN.
Proof. rewrite window_t, length_drop, length_map. lia. Qed.

Lemma window_h_length rs :
  length (h (add_all Stats_init rs)) = Nat.min (length rs) MAXLEN.
Proof. rewrite window_h, length_drop, length_map. lia. Qed.

Lemma anom_add_all self rs :
  anom (add_all self rs) = (anom self + anomalies rs)%nat.
Proof.
  induction rs as [|r rs IH] using rev_ind.
  - unfold anomalies. simpl. lia.
  - rewrite add_all_snoc. simpl. rewrite IH. unfold anomalies.
    rewrite List.filter_app, length_app. simpl.
    destruct (bad (temp_of r) (hum_of r)); simpl; lia.
Qed.

Lemma between_spec lo x hi :
  between lo x hi = true <-> (lo <= x)%Q /\ (x <= hi)%Q.
Proof.
  unfold between. rewrite andb_true_iff, !Qle_bool_iff. reflexivity.
Qed.

Lemma bad_spec tt hh :
  bad tt hh = true <->
  ((tt < TEMP_MIN)%Q \/ (TEMP_MAX < tt)%Q) \/
  ((hh < HUM_MIN)%Q \/ (HUM_MAX < hh)%Q).
Proof.
  unfold bad. rewrite negb_true_iff, andb_false_iff.
  rewrite <- !not_true_iff_false, !between_spec.
  split.
  - intros [H|H]; [left|right].
    + destruct (Qlt_le_dec tt TEMP_MIN); [tauto|].
      destruct (Qlt_le_dec TEMP_MAX tt); [tauto|]. exfalso; apply H; split; assumption.
    + destruct (Qlt_le_dec hh HUM_MIN); [tauto|].
      destruct (Qlt_le_dec HUM_MAX hh); [tauto|]. exfalso; apply H; split; assumption.
  - intros [[H|H]|[H|H]]; [left|left|right|right]; intros [H1 H2];
      apply Qlt_not_le in H; contradiction.
Qed.

Lemma deque_append_fifo {A} (n : nat) (d : list A) x :
  (0 < n)%nat -> (length d <= n)%nat ->
  deque_append n d x = (if (length d <? n)%nat then d else tail d) ++ [x].
Proof.
  intros Hn Hd. unfold deque_append. rewrite length_app. simpl.
  destruct (Nat.ltb_spec n (length d + 1)), (Nat.ltb_spec (length d) n);
    try lia; try reflexivity.
  destruct d; simpl in *; [lia | reflexivity].
Qed.

Lemma deque_append_newest {A} (d : list A) x :
  exists older, deque_append MAXLEN d x = older ++ [x].
Proof.
  unfold deque_append. destruct d as [|a d].
  - exists []. reflexivity.
  - destruct (_ <? _)%nat; [exists d | exists (a :: d)]; reflexivity.
Qed.

(** C2.  [Stats.add] flags a reading exactly when the temperature is outside
    [18, 27] or the humidity is outside [30, 60]; the reading becomes the
    newest item of both windows whether flagged or not; the counter grows by
    one on a flagged reading and is unchanged otherwise; over any run of
    readings the counter never decreases and ends at its start value plus
    the number of anomalous readings of the run. *)
Theorem C2_anomaly_count (self : Stats) (tt hh : Q) (ts : string)
    (rs : list reading) :
  let st' := fst (add self tt hh ts) in
  let flag := snd (add self tt hh ts) in
  (flag = true <->
     ((tt < 18)%Q \/ (27 < tt)%Q) \/ ((hh < 30)%Q \/ (60 < hh)%Q))
  /\ (exists older_t older_h,
        t st' = older_t ++ [tt] /\ h st' = older_h ++ [hh])
  /\ anom st' = (anom self + (if flag then 1 else 0))%nat
  /\ (anom self <= anom (add_all self rs))%nat
  /\ anom (add_all self rs) = (anom self + anomalies rs)%nat.
Proof.
  simpl. repeat split.
  - apply bad_spec.
  - apply bad_spec.
  - destruct (deque_append_newest (t self) tt) as [ot Ht].
    destruct (deque_append_newest (h self) hh) as [oh Hh].
    exists ot, oh. split; assumption.
  - destruct (bad tt hh); lia.
  - rewrite anom_add_all. lia.
  - apply anom_add_all.
Qed.

(** C3.  For every object reached from a fresh [Stats] by a run of [add]
    calls both windows have at most ten items and hold the most recent
    readings oldest first; one more [add] appends the new value and drops
    the oldest item exactly when the window already held ten; and after that
    [add] each average is [sum(window) / len(window)] over the whole current
    window, recomputed from its items. *)
Theorem C3_window_fifo (rs : list reading) (r : reading) :
  let st := add_all Stats_init rs in
  let st' := add_all Stats_init (rs ++ [r]) in
  ((length (t st) <= 10)%nat /\ (length (h st) <= 10)%nat)
  /\ (t st = drop (length rs - 10) (map temp_of rs)
      /\ h st = drop (length rs - 10) (map hum_of rs))
  /\ (t st' = (if (length (t st) <? 10)%nat then t st else tail (t st))
                ++ [temp_of r]
      /\ h st' = (if (length (h st) <? 10)%nat then h st else tail (h st))
                ++ [hum_of r])
  /\ (avg_t st' = (py_sum (t st') / py_len (t st'))%Q
      /\ avg_h st' = (py_sum (h st') / py_len (h st'))%Q).
Proof.
  intros st st'.
  assert (Ht : (length (t st) <= 10)%nat)
    by (unfold st; rewrite window_t_length; unfold MAXLEN; lia).
  assert (Hh : (length (h st) <= 10)%nat)
    by (unfold st; rewrite window_h_length; unfold MAXLEN; lia).
  assert (E : st' = fst (add st (temp_of r) (hum_of r) r.2))
    by apply add_all_snoc.
  split; [split; assumption|].
  split; [split; [apply window_t | apply window_h]|].
  split.
  { rewrite E. simpl. split; apply (deque_append_fifo 10); auto; lia. }
  rewrite E. simpl. split; reflexivity.
Qed.

(* ===================================================================== *)
(** ** The sender *)

Ltac world_cases w :=
  destruct w as [sensors0 log0 queue0 sock0 charging0 listening0 stop0
                 tape0 clock0 net0 built0];
  unfold send, send_outcome, send_ops, packet_of, utc_now, create_connection,
    sendall, next_outcome, close, queue_append, log_put;
  simpl;
  destruct clock0 as [|now clock0]; simpl;
  destruct charging0; simpl;
  destruct sock0; simpl;
  destruct tape0 as [|[] [|[] tape0]]; simpl.

(** The complete effect of one [send]. *)
Lemma send_effect sid a b n w :
  let p := packet_of sid a b n w in
  let w' := send sid a b n w in
  built w' = built w ++ [p]
  /\ net w' = net w ++ send_ops w p
  /\ packet_queue w' =
       match send_outcome w with
       | Transmitted => packet_queue w
       | _ => packet_queue w ++ [p]
       end
  /\ log_queue w' =
       match send_outcome w with
       | ConnectFailed => log_queue w ++ [LogCentralOffline]
       | TransmitFailed => log_queue w ++ [LogCentralLost]
       | _ => log_queue w
       end
  /\ sock w' =
       match send_outcome w with
       | QueuedCharging => sock w
       | Transmitted => true
       | _ => false
       end.
Proof.
  world_cases w; repeat split; rewrite <- ?app_assoc, ?app_nil_r; reflexivity.
Qed.

(** [send] leaves the sensor table and the flags alone. *)
Lemma send_frame sid a b n w :
  let w' := send sid a b n w in
  sensors w' = sensors w
  /\ charging_event w' = charging_event w
  /\ listening_event w' = listening_event w
  /\ stop_event w' = stop_event w.
Proof. world_cases w; repeat split; reflexivity. Qed.

Lemma send_calls_cons sid a b n cs w :
  send_calls ((sid, a, b, n) :: cs) w = send_calls cs (send sid a b n w).
Proof. reflexivity. Qed.

Lemma send_calls_charging cs : forall w,
  charging_event w = true ->
  exists new,
    built (send_calls cs w) = built w ++ new
    /\ packet_queue (send_calls cs w) = packet_queue w ++ new
    /\ map call_of new = map rounded cs
    /\ net (send_calls cs w) = net w
    /\ sock (send_calls cs w) = sock w.
Proof.
  induction cs as [|c cs IH]; intros w Hc.
  - exists []. simpl. rewrite !app_nil_r. auto.
  - destruct c as [[[sid a] b] n].
    pose proof (send_effect sid a b n w) as (Hb & Hn & Hq & _ & Hs).
    pose proof (send_frame sid a b n w) as (_ & Hc' & _).
    assert (Ho : send_outcome w = QueuedCharging)
      by (unfold send_outcome; rewrite Hc; reflexivity).
    unfold send_ops in Hn. rewrite Ho in *.
    destruct (IH (send sid a b n w)) as (new & H1 & H2 & H3 & H4 & H5).
    { simpl in Hc'. congruence. }
    exists (packet_of sid a b n w :: new).
    rewrite send_calls_cons, H1, H2, H4, H5, Hb, Hq, Hn, Hs.
    rewrite <- !app_assoc, app_nil_r. simpl. rewrite H3. auto.
Qed.

Lemma send_calls_failed cs : forall w,
  all_failed cs w = true ->
  exists new,
    built (send_calls cs w) = built w ++ new
    /\ packet_queue (send_calls cs w) = packet_queue w ++ new
    /\ map call_of new = map rounded cs.
Proof.
  induction cs as [|c cs IH]; intros w Hf.
  - exists []. simpl. rewrite !app_nil_r. auto.
  - destruct c as [[[sid a] b] n]. simpl in Hf.
    apply andb_true_iff in Hf as [Hf1 Hf2].
    change (send1 w (sid, a, b, n)) with (send sid a b n w) in Hf2.
    pose proof (send_effect sid a b n w) as (Hb & _ & Hq & _).
    destruct (IH _ Hf2) as (new & H1 & H2 & H3).
    exists (packet_of sid a b n w :: new).
    rewrite send_calls_cons, H1, H2, Hb, Hq.
    destruct (send_outcome w); try discriminate;
      rewrite <- !app_assoc; simpl; rewrite H3; auto.
Qed.

Lemma send_ops_fresh w p :
  charging_event w = false -> sock w = false ->
  exists ok rest, send_ops w p = Connect ok :: rest.
Proof.
  intros Hc Hs. unfold send_ops, send_outcome. rewrite Hc, Hs.
  destruct (net_tape w) as [|[] [|[] tape]]; simpl; eauto.
Qed.

Lemma failed_running w :
  failed (send_outcome w) = true -> charging_event w = false.
Proof.
  unfold send_outcome. destruct (charging_event w); [discriminate|reflexivity].
Qed.

(** C4.  A [send] made while [charging_event] is set builds the packet,
    appends it at the end of [packet_queue] and returns: no network
    operation is performed (no connection attempt, no transmission), the
    tape of network outcomes is not consumed, and the socket handle and the
    log are untouched.  Consequently a run of such calls leaves the built
    packets at the end of the queue in the order of the calls. *)
Theorem C4_charging_send_queues (sid : string) (a b : Q) (n : nat)
    (cs : list send_call) (w : world) :
  charging_event w = true ->
  let p := packet_of sid a b n w in
  let w' := send sid a b n w in
  (packet_queue w' = packet_queue w ++ [p] /\ built w' = built w ++ [p])
  /\ (net w' = net w /\ net_tape w' = net_tape w)
  /\ (sock w' = sock w /\ log_queue w' = log_queue w)
  /\ (exists new,
        built (send_calls cs w) = built w ++ new
        /\ packet_queue (send_calls cs w) = packet_queue w ++ new
        /\ map call_of new = map rounded cs
        /\ net (send_calls cs w) = net w).
Proof.
  intros Hc p w'.
  pose proof (send_effect sid a b n w) as (Hb & Hn & Hq & Hl & Hs).
  assert (Ho : send_outcome w = QueuedCharging)
    by (unfold send_outcome; rewrite Hc; reflexivity).
  unfold send_ops in Hn. rewrite Ho in *. rewrite app_nil_r in Hn.
  repeat split; try assumption.
  - subst w'. clear -Hc. world_cases w; try discriminate; reflexivity.
  - destruct (send_calls_charging cs w Hc) as (new & H1 & H2 & H3 & H4 & _).
    exists new. auto.
Qed.

Lemma C4_charging_send_queues_witness :
  charging_event C4_world = true
  /\ packet_queue (send "s1" 21 40 0 C4_world)
     = [mkPacket "s1" (Qmake 2100 100) (Qmake 4000 100) 0 "t0"]
  /\ net (send "s1" 21 40 0 C4_world) = [].
Proof.
  split; [reflexivity|].
  pose proof (C4_charging_send_queues "s1" 21 40 0 [] C4_world eq_refl)
    as ((Hq & _) & (Hn & _) & _).
  split; [exact Hq | exact Hn].
Defined.

(** C5.  A [send] made while running in which connecting or transmitting
    fails puts one failure message on the log, leaves the socket handle
    reset, and appends the packet at the end of [packet_queue].  Its network
    operations are either the one failed connect, or one failed [sendall]
    (after a successful connect when no socket was open) followed by the
    close: the packet is not tried a second time within the call.  The next
    [send] made while running starts by opening a connection. *)
Theorem C5_failed_send_requeues (sid : string) (a b : Q) (n : nat)
    (sid2 : string) (a2 b2 : Q) (n2 : nat) (w : world) :
  failed (send_outcome w) = true ->
  let p := packet_of sid a b n w in
  let w' := send sid a b n w in
  charging_event w = false
  /\ (log_queue w' = log_queue w ++ [LogCentralOffline]
        /\ net w' = net w ++ [Connect false]
      \/ log_queue w' = log_queue w ++ [LogCentralLost]
        /\ net w' = net w ++ (if sock w then [] else [Connect true])
                          ++ [Sendall p false; Close])
  /\ sock w' = false
  /\ packet_queue w' = packet_queue w ++ [p]
  /\ (exists ok rest, net (send sid2 a2 b2 n2 w') = net w' ++ Connect ok :: rest).
Proof.
  intros Hf p w'.
  pose proof (failed_running w Hf) as Hc.
  pose proof (send_effect sid a b n w) as (Hb & Hn & Hq & Hl & Hs).
  pose proof (send_frame sid a b n w) as (_ & Hc' & _).
  fold w' in Hb, Hn, Hq, Hl, Hs, Hc'. fold p in Hb, Hn, Hq.
  unfold send_ops in Hn.
  assert (Hs' : sock w' = false)
    by (rewrite Hs; destruct (send_outcome w); try discriminate; reflexivity).
  split; [assumption|].
  split; [destruct (send_outcome w); try discriminate; auto|].
  split; [assumption|].
  split; [destruct (send_outcome w); try discriminate; auto|].
  pose proof (send_effect sid2 a2 b2 n2 w') as (_ & Hn2 & _).
  destruct (send_ops_fresh w' (packet_of sid2 a2 b2 n2 w')) as (ok & rest & E);
    [congruence | assumption |].
  exists ok, rest. simpl in Hn2. rewrite Hn2, E. reflexivity.
Qed.

Lemma C5_failed_send_requeues_witness :
  failed (send_outcome C5_world) = true
  /\ sock (send "s1" 21 40 0 C5_world) = false
  /\ packet_queue (send "s1" 21 40 0 C5_world)
     = [mkPacket "s1" (Qmake 2100 100) (Qmake 4000 100) 0 "t0"].
Proof.
  split; [reflexivity|].
  pose proof (C5_failed_send_requeues "s1" 21 40 0 "s2" 22 41 0 C5_world eq_refl)
    as (_ & _ & Hs & Hq & _).
  split; [exact Hs | exact Hq].
Defined.

(** C9.  While running, a run of [send] calls that all fail appends one
    packet per call at the end of [packet_queue], in the order of the
    calls, whatever happens afterwards.  A further [send] that fails as well
    appends its own packet behind them; one that succeeds leaves
    [packet_queue] exactly as it was, and the only [sendall] it performs
    carries its own packet.  In no world does a [send] remove anything from
    the queue: it returns the queue it found, extended by at most its own
    packet. *)
Theorem C9_failures_queue_in_order (cs : list send_call)
    (sid : string) (a b : Q) (n : nat) (w w0 : world) :
  all_failed cs w = true ->
  let w1 := send_calls cs w in
  let p := packet_of sid a b n w1 in
  let w2 := send sid a b n w1 in
  (exists new,
      packet_queue w1 = packet_queue w ++ new
      /\ built w1 = built w ++ new
      /\ length new = length cs
      /\ map call_of new = map rounded cs)
  /\ (failed (send_outcome w1) = true ->
        packet_queue w2 = packet_queue w1 ++ [p])
  /\ (send_outcome w1 = Transmitted ->
        packet_queue w2 = packet_queue w1
        /\ net w2 = net w1 ++ (if sock w1 then [] else [Connect true])
                          ++ [Sendall p true])
  /\ (packet_queue (send sid a b n w0) = packet_queue w0
      \/ packet_queue (send sid a b n w0)
         = packet_queue w0 ++ [packet_of sid a b n w0]).
Proof.
  intros Hf w1 p w2.
  destruct (send_calls_failed cs w Hf) as (new & H1 & H2 & H3).
  pose proof (send_effect sid a b n w1) as (_ & Hn & Hq & _).
  fold w2 in Hn, Hq. fold p in Hn, Hq. unfold send_ops in Hn.
  split; [|split; [|split]].
  - exists new. repeat split; try assumption.
    rewrite <- (length_map call_of new), H3, length_map. reflexivity.
  - intros Hfail. rewrite Hq.
    destruct (send_outcome w1); try discriminate; reflexivity.
  - intros Ht. rewrite Ht in Hn, Hq. split; assumption.
  - pose proof (send_effect sid a b n w0) as (_ & _ & Hq0 & _).
    simpl in Hq0. destruct (send_outcome w0); auto.
Qed.

Lemma C9_failures_queue_in_order_witness :
  all_failed C9_calls C9_world = true
  /\ send_outcome (send_calls C9_calls C9_world) = Transmitted
  /\ map sensor_id (packet_queue (send_calls C9_calls C9_world))
     = ["s1"; "s2"; "s1"]%string
  /\ packet_queue (send "s3" 20 50 0 (send_calls C9_calls C9_world))
     = packet_queue (send_calls C9_calls C9_world).
Proof.
  split; [reflexivity|]. split; [reflexivity|]. split; [reflexivity|].
  exact (proj1 (proj1 (proj2 (proj2
           (C9_failures_queue_in_order C9_calls "s3" 20 50 0 C9_world
              C9_world eq_refl))) eq_refl)).
Defined.

(* ===================================================================== *)
(** ** The flush routine *)

Lemma delivered_app ops1 ops2 :
  delivered (ops1 ++ ops2) = delivered ops1 ++ delivered ops2.
Proof.
  induction ops1 as [|[ok|p [|]|] ops1 IH]; simpl; rewrite ?IH; reflexivity.
Qed.

Lemma connects_app ops1 ops2 :
  connects (ops1 ++ ops2) = (connects ops1 + connects ops2)%nat.
Proof.
  induction ops1 as [|[ok|p ok|] ops1 IH]; simpl; rewrite ?IH; reflexivity.
Qed.

Lemma same_outside_flush_refl w : same_outside_flush w w.
Proof. repeat split. Qed.

Lemma same_outside_flush_trans w1 w2 w3 :
  same_outside_flush w1 w2 -> same_outside_flush w2 w3 ->
  same_outside_flush w1 w3.
Proof.
  unfold same_outside_flush.
  intros (?&?&?&?&?&?&?) (?&?&?&?&?&?&?). repeat split; congruence.
Qed.

(** One pass of the loop body on a non-empty queue: either the head was
    delivered over a connection of its own and is gone, or the attempt
    failed, the queue is as before and the loop is left. *)
Lemma flush_body_cases w p rest :
  packet_queue w = p :: rest ->
  exists w' again,
    flush_body w = (w', again)
    /\ same_outside_flush w w'
    /\ connects (net w') = S (connects (net w))
    /\ (if again
        then packet_queue w' = rest
             /\ delivered (net w') = delivered (net w) ++ [p]
             /\ log_queue w' = log_queue w ++ [LogQueuedSent]
        else packet_queue w' = p :: rest
             /\ delivered (net w') = delivered (net w)
             /\ log_queue w' = log_queue w ++ [LogStillOffline]).
Proof.
  destruct w as [sensors0 log0 queue0 sock0 charging0 listening0 stop0
                 tape0 clock0 net0 built0].
  simpl. intros ->.
  unfold flush_body, transmit_fresh, create_connection, sendall, next_outcome,
    close, log_put. simpl.
  destruct tape0 as [|[] [|[] tape0]]; simpl;
    eexists; eexists; (split; [reflexivity|]); simpl;
    rewrite ?connects_app, ?delivered_app; simpl;
    rewrite ?app_nil_r;
    (split; [unfold same_outside_flush; repeat split|]);
    (split; [lia|]); auto.
Qed.

(** The loop, for any bound above the queue length: it ends after [n]
    passes having delivered the first [k] packets. *)
Lemma flush_loop_spec fuel : forall w,
  (length (packet_queue w) < fuel)%nat ->
  exists w' n k,
    flush_loop fuel w = Some (w', n)
    /\ same_outside_flush w w'
    /\ (n <= length (packet_queue w))%nat
    /\ packet_queue w' = drop k (packet_queue w)
    /\ delivered (net w') = delivered (net w) ++ take k (packet_queue w)
    /\ connects (net w') = (connects (net w) + n)%nat
    /\ (packet_queue w' = [] /\ n = k
        \/ packet_queue w' <> [] /\ n = S k
           /\ exists older, log_queue w' = older ++ [LogStillOffline]).
Proof.
  induction fuel as [|fuel IH]; intros w Hlen; [lia|].
  simpl. destruct (packet_queue w) as [|p rest] eqn:Eq.
  - exists w, 0%nat, 0%nat. simpl. rewrite Eq, app_nil_r, Nat.add_0_r.
    repeat split; auto using same_outside_flush_refl.
  - destruct (flush_body_cases w p rest Eq)
      as (w1 & again & Hb & Hsame & Hconn & Hcase).
    rewrite Hb. destruct again.
    + destruct Hcase as (Hq1 & Hd1 & Hl1).
      destruct (IH w1) as (w' & n & k & Hloop & Hs & Hn & Hq & Hd & Hc & Hend).
      { rewrite Hq1. simpl in Hlen. lia. }
      rewrite Hloop. exists w', (S n), (S k).
      rewrite Hq1 in Hn, Hq, Hd. simpl.
      split; [reflexivity|].
      split; [eapply same_outside_flush_trans; eassumption|].
      split; [lia|].
      split; [assumption|].
      split; [rewrite Hd, Hd1, <- app_assoc; reflexivity|].
      split; [rewrite Hc, Hconn; lia|].
      destruct Hend as [[? ?]|(? & ? & ?)]; [left | right]; auto.
    + destruct Hcase as (Hq1 & Hd1 & Hl1).
      exists w1, 1%nat, 0%nat. simpl. rewrite Hq1, Hd1, Hconn, app_nil_r.
      split; [reflexivity|].
      split; [assumption|].
      split; [lia|].
      split; [reflexivity|].
      split; [reflexivity|].
      split; [lia|].
      right. split; [discriminate|]. split; [reflexivity|]. eauto.
Qed.

Lemma flush_queue_fuel fuel w :
  (length (packet_queue w) < fuel)%nat ->
  exists n, flush_loop fuel w = Some (flush_queue w, n).
Proof.
  intros Hlen.
  destruct (flush_loop_spec fuel w Hlen) as (w1 & n1 & k1 & H1 & _ & _ & Hq1 & _).
  destruct (flush_loop_spec (flush_fuel w) w) as (w2 & n2 & k2 & H2 & _);
    [unfold flush_fuel; lia|].
  unfold flush_queue. rewrite H2.
  enough (E : forall f1 f2 w a b,
             flush_loop f1 w = Some a -> flush_loop f2 w = Some b -> a = b).
  { specialize (E _ _ _ _ _ H1 H2). inversion E; subst. eauto. }
  clear. induction f1 as [|f1 IH]; intros [|f2] w a b; simpl; try discriminate.
  destruct (packet_queue w); [congruence|].
  destruct (flush_body w) as [w' []]; [|congruence].
  destruct (flush_loop f1 w') as [[w1 n1]|] eqn:E1; [|discriminate].
  destruct (flush_loop f2 w') as [[w2 n2]|] eqn:E2; [|discriminate].
  specialize (IH _ _ _ _ E1 E2). inversion IH; subst. congruence.
Qed.

Lemma flush_body_up w p rest tape :
  packet_queue w = p :: rest ->
  net_tape w = true :: true :: tape ->
  exists w1,
    flush_body w = (w1, true)
    /\ packet_queue w1 = rest /\ net_tape w1 = tape
    /\ net w1 = net w ++ [Connect true; Sendall p true; Close]
    /\ log_queue w1 = log_queue w ++ [LogQueuedSent].
Proof.
  destruct w as [sensors0 log0 queue0 sock0 charging0 listening0 stop0
                 tape0 clock0 net0 built0].
  simpl. intros -> ->. eexists. split; [reflexivity|]. simpl.
  rewrite <- !app_assoc. repeat split.
Qed.

Lemma flush_body_down w p rest :
  packet_queue w = p :: rest ->
  attempt_ok (net_tape w) = false ->
  exists w1,
    flush_body w = (w1, false)
    /\ packet_queue w1 = p :: rest
    /\ net w1 = net w ++ failed_attempt (net_tape w) p
    /\ log_queue w1 = log_queue w ++ [LogStillOffline].
Proof.
  destruct w as [sensors0 log0 queue0 sock0 charging0 listening0 stop0
                 tape0 clock0 net0 built0].
  simpl. intros -> Ha.
  destruct tape0 as [|[] [|[] tape0]]; try discriminate;
    (eexists; split; [reflexivity|]); simpl;
    rewrite <- ?app_assoc; repeat split.
Qed.

Lemma attempt_ok_true tape :
  attempt_ok tape = true -> tape = true :: true :: drop 2 tape.
Proof. destruct tape as [|[] [|[] tape]]; try discriminate; reflexivity. Qed.

Lemma flush_count_cons tape p q :
  flush_count tape (p :: q) =
  if attempt_ok tape then S (flush_count (drop 2 tape) q) else O.
Proof. destruct tape as [|[] [|[] tape]]; reflexivity. Qed.

(** What [flush_count] counts: that many attempts succeed, and the next
    one, if a packet is left for it, fails. *)
Lemma flush_count_tape q : forall tape,
  (flush_count tape q <= length q)%nat
  /\ take (2 * flush_count tape q) tape
     = replicate (2 * flush_count tape q) true
  /\ ((flush_count tape q < length q)%nat ->
      attempt_ok (drop (2 * flush_count tape q) tape) = false).
Proof.
  induction q as [|p q IH]; intros tape.
  - simpl. split; [lia|]. split; [reflexivity|]. lia.
  - destruct tape as [|[] [|[] tape']];
      try (simpl; split; [lia|]; split; [reflexivity|]; intros _;
           reflexivity).
    destruct (IH tape') as (H1 & H2 & H3).
    cbn [flush_count length].
    replace (2 * S (flush_count tape' q))%nat
      with (S (S (2 * flush_count tape' q))) by lia.
    split; [lia|]. split.
    + cbn [take replicate]. rewrite H2. reflexivity.
    + intros Hlt. cbn [drop]. apply H3. lia.
Qed.

Lemma delivered_deliveries ps : delivered (concat (map delivery ps)) = ps.
Proof. induction ps as [|p ps IH]; simpl; [|rewrite IH]; reflexivity. Qed.

Lemma connects_deliveries ps :
  connects (concat (map delivery ps)) = length ps.
Proof. induction ps as [|p ps IH]; simpl; [|rewrite IH]; reflexivity. Qed.

Lemma failed_attempt_ops tape p :
  delivered (failed_attempt tape p) = []
  /\ connects (failed_attempt tape p) = 1%nat.
Proof. destruct tape as [|[] tape]; split; reflexivity. Qed.

(** The loop, pass by pass along the tape: the packets in front of the
    first failing attempt are delivered, and that attempt, if there is one,
    is the last thing the loop does. *)
Lemma flush_loop_exact fuel : forall w,
  (length (packet_queue w) < fuel)%nat ->
  let q := packet_queue w in
  let k := flush_count (net_tape w) q in
  exists w' n,
    flush_loop fuel w = Some (w', n)
    /\ packet_queue w' = drop k q
    /\ net w' = net w ++ concat (map delivery (take k q))
                 ++ match drop k q with
                    | [] => []
                    | p :: _ => failed_attempt (drop (2 * k) (net_tape w)) p
                    end
    /\ log_queue w' = log_queue w ++ replicate k LogQueuedSent
                       ++ (if (k <? length q)%nat then [LogStillOffline]
                           else []).
Proof.
  induction fuel as [|fuel IH]; intros w Hlen; [lia|].
  cbv zeta. simpl flush_loop.
  destruct (packet_queue w) as [|p rest] eqn:Eq.
  - exists w, O. simpl. rewrite !app_nil_r. repeat split. exact Eq.
  - rewrite flush_count_cons. destruct (attempt_ok (net_tape w)) eqn:Ea.
    + pose proof (attempt_ok_true _ Ea) as Et.
      destruct (flush_body_up w p rest _ Eq Et)
        as (w1 & Hb & Hq1 & Ht1 & Hn1 & Hl1).
      rewrite Hb.
      destruct (IH w1) as (w' & n & Hloop & Hq & Hn & Hl).
      { rewrite Hq1. simpl in Hlen. lia. }
      cbv zeta in Hq, Hn, Hl. rewrite Hq1, Ht1 in Hq, Hn, Hl.
      rewrite Hloop. exists w', (S n).
      set (k1 := flush_count (drop 2 (net_tape w)) rest) in *.
      rewrite drop_drop in Hn.
      replace (2 * S k1)%nat with (2 + 2 * k1)%nat by lia.
      cbn [take map concat length replicate].
      change (drop (S k1) (p :: rest)) with (drop k1 rest).
      change (S k1 <? S (length rest))%nat with (k1 <? length rest)%nat.
      split; [reflexivity|]. split; [exact Hq|].
      split.
      * rewrite Hn, Hn1. unfold delivery at 2.
        rewrite <- !app_assoc. reflexivity.
      * rewrite Hl, Hl1. rewrite <- !app_assoc. reflexivity.
    + destruct (flush_body_down w p rest Eq Ea) as (w1 & Hb & Hq1 & Hn1 & Hl1).
      rewrite Hb. exists w1, 1%nat. simpl.
      split; [reflexivity|]. split; [exact Hq1|].
      split; [exact Hn1 | exact Hl1].
Qed.

(** C6.  The flush routine takes the queued packets oldest first and tries
    each over a connection of its own (the sender's socket handle is not
    used).  Let [k] be the number of packets in front of the first one whose
    connect or [sendall] fails, as the network outcomes of the flush decide
    it: the first [k] attempts succeed and, when more than [k] packets were
    queued, the next attempt fails.  Then exactly those [k] packets are
    delivered, in order; the failed attempt, if any, is the last network
    operation of the flush, so nothing behind the failed packet is tried;
    and the queue is left holding the packets from the failed one on, in
    their original order, or empty when no attempt failed.  One "queued
    summary sent" entry is logged per delivered packet and one "still
    offline" entry for the failure. *)
Theorem C6_flush_stops_at_first_failure (w : world) :
  let q := packet_queue w in
  let tape := net_tape w in
  let k := flush_count tape q in
  let w' := flush_queue w in
  ((k <= length q)%nat
   /\ take (2 * k) tape = replicate (2 * k) true
   /\ ((k < length q)%nat -> attempt_ok (drop (2 * k) tape) = false))
  /\ packet_queue w' = drop k q
  /\ net w' = net w ++ concat (map delivery (take k q))
               ++ match drop k q with
                  | [] => []
                  | p :: _ => failed_attempt (drop (2 * k) tape) p
                  end
  /\ delivered (net w') = delivered (net w) ++ take k q
  /\ connects (net w')
     = (connects (net w) + (if (k <? length q)%nat then S k else k))%nat
  /\ log_queue w' = log_queue w ++ replicate k LogQueuedSent
                     ++ (if (k <? length q)%nat then [LogStillOffline]
                         else [])
  /\ sock w' = sock w.
Proof.
  intros q tape k w'.
  destruct (flush_count_tape q tape) as (Hk & Htake & Hfail).
  fold k in Hk, Htake, Hfail.
  destruct (flush_loop_exact (flush_fuel w) w)
    as (w1 & n & Hloop & Hq & Hn & Hl); [unfold flush_fuel; lia|].
  cbv zeta in Hq, Hn, Hl. fold q tape in Hq, Hn, Hl. fold k in Hq, Hn, Hl.
  destruct (flush_loop_spec (flush_fuel w) w)
    as (w2 & n2 & k2 & Hloop2 & Hs & _); [unfold flush_fuel; lia|].
  assert (E : w' = w1) by (unfold w', flush_queue; rewrite Hloop; reflexivity).
  assert (E2 : w2 = w1) by congruence.
  rewrite E. subst w2.
  split; [auto|]. split; [assumption|]. split; [assumption|].
  assert (Hlast :
    delivered (match drop k q with
               | [] => []
               | p :: _ => failed_attempt (drop (2 * k) tape) p
               end) = []
    /\ connects (match drop k q with
                 | [] => []
                 | p :: _ => failed_attempt (drop (2 * k) tape) p
                 end) = (if (k <? length q)%nat then 1 else 0)%nat).
  { destruct (drop k q) as [|p0 rest0] eqn:Ed.
    - assert (length (drop k q) = O) by (rewrite Ed; reflexivity).
      rewrite length_drop in H.
      destruct (Nat.ltb_spec k (length q)); [lia|]. split; reflexivity.
    - assert (length (drop k q) = S (length rest0)) by (rewrite Ed; reflexivity).
      rewrite length_drop in H.
      destruct (Nat.ltb_spec k (length q)); [|lia].
      apply failed_attempt_ops. }
  destruct Hlast as [Hd0 Hc0].
  split.
  { rewrite Hn, !delivered_app, delivered_deliveries, Hd0, app_nil_r.
    reflexivity. }
  split.
  { rewrite Hn, !connects_app, connects_deliveries, Hc0, length_take.
    destruct (k <? length q)%nat; lia. }
  split; [assumption|]. apply Hs.
Qed.

(** C10.  [flush_queue] always terminates: run with any bound above the
    queue length the loop ends, with the result [flush_queue] returns, after
    at most as many passes as there were packets; and each pass of the body
    either removes the head packet for good and asks for another pass, or
    leaves the queue as it found it and ends the loop. *)
Theorem C10_flush_terminates (fuel : nat) (w : world) :
  (length (packet_queue w) < fuel)%nat ->
  (exists n,
      flush_loop fuel w = Some (flush_queue w, n)
      /\ (n <= length (packet_queue w))%nat)
  /\ (forall p rest, packet_queue w = p :: rest ->
        packet_queue (flush_body w).1 =
          if (flush_body w).2 then rest else p :: rest).
Proof.
  intros Hlen. split.
  - destruct (flush_queue_fuel fuel w Hlen) as (n & Hn).
    destruct (flush_loop_spec fuel w Hlen) as (w1 & n1 & k & H1 & _ & Hle & _).
    exists n. split; [assumption|]. congruence.
  - intros p rest Eq.
    destruct (flush_body_cases w p rest Eq) as (w1 & again & Hb & _ & _ & Hcase).
    rewrite Hb. simpl. destruct again; apply Hcase.
Qed.

Lemma C10_flush_terminates_witness :
  (length (packet_queue flush_world) < 4)%nat
  /\ exists n, flush_loop 4 flush_world = Some (flush_queue flush_world, n)
               /\ (n <= 3)%nat.
Proof.
  split; [simpl; lia|].
  apply (C10_flush_terminates 4 flush_world). simpl. lia.
Defined.

Example flush_world_result :
  packet_queue (flush_queue flush_world) = drop 1 flush_packets
  /\ net (flush_queue flush_world) =
       [Connect true; Sendall (mkPacket "s1" 21 40 0 "t0") true; Close;
        Connect true; Sendall (mkPacket "s2" 22 41 1 "t1") false; Close]
  /\ log_queue (flush_queue flush_world) = [LogQueuedSent; LogStillOffline].
Proof. repeat split. Qed.

(* ===================================================================== *)
(** ** The battery controller *)

Lemma flush_queue_frame w : same_outside_flush w (flush_queue w).
Proof.
  destruct (flush_loop_spec (flush_fuel w) w) as (w1 & n & k & Hloop & Hs & _);
    [unfold flush_fuel; lia|].
  unfold flush_queue. rewrite Hloop. assumption.
Qed.

Lemma battery_tick_inv b w :
  battery_inv b w ->
  battery_inv (battery_tick b w).1 (battery_tick b w).2.
Proof.
  unfold battery_inv, battery_tick. intros (Hl & Hli & Hch).
  destruct (is_discharging b) eqn:Ed; simpl.
  - destruct (Z.leb_spec (battery_level b + -1) 15); simpl.
    + repeat split; lia.
    + repeat split; try assumption; lia.
  - destruct (Z.leb_spec 100 (battery_level b + 1)); simpl.
    + destruct (flush_queue_frame
                  (log_put LogBatteryFull
                     (set_charging_event false (set_listening_event true w))))
        as (_ & _ & Hc & Hli' & _).
      rewrite Hc, Hli'. repeat split; lia.
    + repeat split; try assumption; lia.
Qed.

Lemma battery_run_inv n : forall b w,
  battery_inv b w ->
  battery_inv (battery_run n b w).1 (battery_run n b w).2.
Proof.
  induction n as [|n IH]; intros b w Hinv; [assumption|].
  simpl. pose proof (battery_tick_inv b w Hinv) as Hstep.
  destruct (battery_tick b w) as [b' w']. apply IH. assumption.
Qed.

(** C7.  One tick moves the level by exactly one, down while discharging
    and up while charging.  A discharging tick that brings the level to 15
    or below switches to charging, clears [listening_event] and sets
    [charging_event], without flushing; a charging tick that brings the
    level to 100 or above switches to discharging, sets [listening_event],
    clears [charging_event], logs, and then runs [flush_queue] once on that
    world; every other tick leaves the mode and the world as they were.
    From the start of [main], after any number of ticks the level lies in
    [15, 100] and the two events agree with the mode. *)
Theorem C7_battery_two_state (b : battery_state) (w : world)
    (tape : list bool) (times : list string) (n : nat) :
  let b' := (battery_tick b w).1 in
  let w' := (battery_tick b w).2 in
  let bn := (battery_run n battery_init (main_world tape times)).1 in
  let wn := (battery_run n battery_init (main_world tape times)).2 in
  battery_level b' = battery_level b + (if is_discharging b then -1 else 1)
  /\ (is_discharging b = true /\ battery_level b' <= 15 ->
        is_discharging b' = false
        /\ listening_event w' = false /\ charging_event w' = true
        /\ w' = log_put LogBatteryLow
                  (set_charging_event true (set_listening_event false w)))
  /\ (is_discharging b = false /\ 100 <= battery_level b' ->
        is_discharging b' = true
        /\ listening_event w' = true /\ charging_event w' = false
        /\ w' = flush_queue
                  (log_put LogBatteryFull
                     (set_charging_event false (set_listening_event true w))))
  /\ (is_discharging b = true /\ 15 < battery_level b'
      \/ is_discharging b = false /\ battery_level b' < 100 ->
        is_discharging b' = is_discharging b /\ w' = w)
  /\ (15 <= battery_level bn <= 100
      /\ listening_event wn = is_discharging bn
      /\ charging_event wn = negb (is_discharging bn)).
Proof.
  intros b' w' bn wn.
  assert (Hlevel : battery_level b'
                   = battery_level b + (if is_discharging b then -1 else 1)).
  { unfold b', battery_tick.
    destruct (is_discharging b); simpl;
      repeat (destruct (_ <=? _)); reflexivity. }
  split; [assumption|].
  split; [|split; [|split]].
  - intros [Hd Hlow]. rewrite Hlevel, Hd in Hlow.
    unfold b', w', battery_tick. rewrite Hd. simpl.
    destruct (Z.leb_spec (battery_level b + -1) 15); [|lia].
    simpl. repeat split.
  - intros [Hd Hfull]. rewrite Hlevel, Hd in Hfull.
    unfold b', w', battery_tick. rewrite Hd. simpl.
    destruct (Z.leb_spec 100 (battery_level b + 1)); [|lia].
    simpl.
    destruct (flush_queue_frame
                (log_put LogBatteryFull
                   (set_charging_event false (set_listening_event true w))))
      as (_ & _ & Hc & Hli & _).
    rewrite Hc, Hli. repeat split.
  - intros [[Hd Hmid]|[Hd Hmid]]; rewrite Hlevel, Hd in Hmid;
      unfold b', w', battery_tick; rewrite Hd; simpl.
    + destruct (Z.leb_spec (battery_level b + -1) 15); [lia|]. simpl. auto.
    + destruct (Z.leb_spec 100 (battery_level b + 1)); [lia|]. simpl. auto.
  - assert (Hinv : battery_inv bn wn).
    { apply battery_run_inv. unfold battery_inv. simpl. repeat split; lia. }
    destruct Hinv as (Hl & Hli & Hch).
    split; [destruct (is_discharging bn); lia | split; assumption].
Qed.

(** A full cycle from the start of [main]: 85 ticks down to 15, then 85
    ticks up to 100. *)
Example battery_cycle :
  (battery_run 84 battery_init (main_world [] [])).1
    = {| battery_level := 16; is_discharging := true; gui_batt := 16 |}
  /\ (battery_run 85 battery_init (main_world [] [])).1
    = {| battery_level := 15; is_discharging := false; gui_batt := 15 |}
  /\ (battery_run 169 battery_init (main_world [] [])).1
    = {| battery_level := 99; is_discharging := false; gui_batt := 99 |}
  /\ (battery_run 170 battery_init (main_world [] [])).1
    = {| battery_level := 100; is_discharging := true; gui_batt := 100 |}
  /\ log_queue (battery_run 170 battery_init (main_world [] [])).2
    = [LogBatteryLow; LogBatteryFull].
Proof. vm_compute. repeat split. Qed.

(* ===================================================================== *)
(** ** The listener: from readings to summary packets *)

Lemma round_half_even_comp x y :
  (x == y)%Q -> round_half_even x = round_half_even y.
Proof.
  intros H. unfold round_half_even. rewrite <- (Qfloor_comp _ _ H).
  assert (E : Qcompare (x - inject_Z (Qfloor x)) (1 # 2)
              = Qcompare (y - inject_Z (Qfloor x)) (1 # 2)).
  { apply Qcompare_comp; [|apply Qeq_refl].
    unfold Qminus. apply Qplus_comp; [exact H | apply Qeq_refl]. }
  rewrite E. reflexivity.
Qed.


(** The effect of lines 159-164 on the sensor table and on the history of
    built packets. *)
Lemma record_reading_effect sid tv hv ts w :
  let st' := (add (default Stats_init (sensors w !! sid)) tv hv ts).1 in
  let w' := record_reading send sid tv hv ts w in
  sensors w' = <[sid := st']> (sensors w)
  /\ exists now,
       built w' = built w ++
         (if Nat.eqb (length (t st')) 10
          then [mkPacket sid (round2 (avg_t st')) (round2 (avg_h st'))
                         (anom st') now]
          else []).
Proof.
  intros st' w'. unfold w', record_reading.
  change (add (default Stats_init (sensors w !! sid)) tv hv ts)
    with (st', bad tv hv).
  cbv iota beta.
  destruct (Nat.eqb (length (t st')) 10).
  - match goal with |- context [send ?s ?a ?b ?n ?w0] =>
      pose proof (send_effect s a b n w0) as (Hb & _);
      pose proof (send_frame s a b n w0) as (Hs & _)
    end.
    cbv zeta in Hb, Hs. rewrite Hs, Hb. split; [reflexivity|].
    eexists. reflexivity.
  - split; [reflexivity|]. exists ""%string. rewrite app_nil_r. reflexivity.
Qed.






(* ===================================================================== *)
(** ** The listener: malformed lines *)

Ltac iff_triv :=
  simpl; split; intro; first [reflexivity | discriminate | assumption].

Section ListenerProperties.

Variable json_loads : list byte -> option json.
Variable float_of_string : string -> option Q.

Local Abbreviation try_block' := (try_block json_loads float_of_string).
Local Abbreviation handle_line' := (handle_line json_loads float_of_string).
Local Abbreviation handle_lines' := (handle_lines json_loads float_of_string).
Local Abbreviation malformed' := (malformed json_loads float_of_string).
Local Abbreviation decodes' := (decodes json_loads float_of_string).

Lemma malformed_try_block sid line :
  malformed' line = true <-> (try_block' sid line).2 = None.
Proof.
  unfold malformed, try_block, missing, non_numeric, mbind, option_bind.
  destruct (json_loads line) as [j|]; [|iff_triv].
  destruct (getitem j "sensor_id") as [s|],
           (getitem j "temperature") as [tv|],
           (getitem j "humidity") as [hv|],
           (getitem j "timestamp") as [ts|];
    try destruct (py_float float_of_string tv);
    try destruct (py_float float_of_string hv);
    iff_triv.
Qed.

Lemma handle_line_dropped send_avg sid line w :
  (exists sid', handle_line' send_avg sid line w = Dropped sid')
  <-> malformed' line = true.
Proof.
  rewrite (malformed_try_block sid).
  unfold handle_line.
  destruct (try_block' sid line) as [sid' [[[[s tv] hv] ts]|]]; simpl.
  - split; [|discriminate]. intros [x Hx].
    destruct s; try discriminate. destruct ts; discriminate.
  - split; eauto.
Qed.

Lemma py_float_raises v :
  py_float float_of_string v = None <-> float_raises float_of_string v.
Proof.
  destruct v as [|b|z|q|s|l|kvs]; simpl; try tauto;
    try (split; [discriminate | contradiction]).
  destruct (Z.ltb_spec (Z.abs z) FLOAT_INT_LIMIT); split;
    try discriminate; try reflexivity; lia.
Qed.

(** C8 (as the code has it).  A line is dropped when the try block raises
    on it: it does not parse, one of the four fields is missing, or [float]
    raises on the temperature or the humidity; and only such lines are
    dropped.  Dropping a line changes nothing in the world: no entry is put
    on the log, and no sensor's statistics, queue or socket is touched; the
    worker goes on with the lines that follow, in the same world, keeping
    only its own [sid] variable as the try block left it.  [float] raises on
    [null], on a list, on an object, on a string that is no numeral and on
    an integer beyond the range of a double, and on nothing else: a boolean
    is accepted. *)
Theorem C8_malformed_line_dropped
    (send_avg : string -> Q -> Q -> nat -> world -> world)
    (sid : option json) (line other : list byte) (more : list (list byte))
    (w : world) :
  malformed' line = true ->
  handle_line' send_avg sid line w = Dropped (try_block' sid line).1
  /\ handle_lines' send_avg sid (line :: more) w
     = handle_lines' send_avg (try_block' sid line).1 more w
  /\ handle_lines' send_avg sid [line] w = Some ((try_block' sid line).1, w)
  /\ ((exists sid', handle_line' send_avg sid other w = Dropped sid')
      <-> malformed' other = true)
  /\ (forall v, py_float float_of_string v = None
                <-> float_raises float_of_string v).
Proof.
  intros Hm.
  assert (E : handle_line' send_avg sid line w = Dropped (try_block' sid line).1).
  { apply (malformed_try_block sid) in Hm.
    unfold handle_line.
    destruct (try_block' sid line) as [sid' [x|]]; [discriminate|reflexivity]. }
  split; [assumption|].
  simpl. rewrite E.
  split; [reflexivity|]. split; [reflexivity|].
  split; [apply handle_line_dropped | apply py_float_raises].
Qed.

Lemma handle_line_decodes send_avg c sid line r w :
  decodes' sid line r ->
  handle_line' send_avg c line w =
  Handled (Some (JStr sid))
          (record_reading send_avg sid (temp_of r) (hum_of r) r.2 w).
Proof.
  intros (j & Hj & Hs & Ht & Hh & Hts).
  unfold handle_line, try_block.
  rewrite Hj, Hs, Ht, Hh, Hts. reflexivity.
Qed.

(** Lines that decode to the readings [rs] of one sensor take the world
    where [feed] takes it. *)
Lemma handle_lines_feed sid lines rs : forall c w,
  Forall2 (decodes' sid) lines rs ->
  exists c', handle_lines' send c lines w = Some (c', feed sid rs w).
Proof.
  intros c w H. revert c w.
  induction H as [|line r lines rs Hd _ IH]; intros c w.
  - exists c. reflexivity.
  - simpl. rewrite (handle_line_decodes send c sid line r w Hd). apply IH.
Qed.

End ListenerProperties.

(* ===================================================================== *)
(** ** Worked inputs for the listener *)

Lemma C8_malformed_line_dropped_witness :
  malformed demo_loads demo_float [x6e] = true
  /\ handle_lines demo_loads demo_float send None [[x6e]; [x67]]
       (main_world [] [])
     = handle_lines demo_loads demo_float send (Some (JStr "s1")) [[x67]]
         (main_world [] []).
Proof.
  split; [reflexivity|].
  exact (proj1 (proj2 (C8_malformed_line_dropped demo_loads demo_float send
                         None [x6e] [x67] [[x67]] (main_world [] []) eq_refl))).
Defined.

(** C8 as stated fails twice.  An unparsable line is dropped without any
    log event: a connection that delivers only that line leaves the world,
    and with it the empty log, exactly as it was.  And a line whose
    temperature is not a number is not always dropped: with the JSON value
    [true], [float(True)] is 1.0, and with the JSON string "21.5",
    [float("21.5")] is 21.5; in both cases the reading enters the sensor's
    window with that temperature. *)
Lemma C8_counterexample :
  (malformed demo_loads demo_float [x7b] = true
   /\ handle_lines demo_loads demo_float send None [[x7b]] (main_world [] [])
      = Some (None, main_world [] [])
   /\ handle demo_loads demo_float send [[x7b; x0a]] (main_world [] [])
      = Some (main_world [] [])
   /\ log_queue (main_world [] []) = [])
  /\ (malformed_as_stated lenient_loads [x62] = true
      /\ handle_line lenient_loads numeral_float send None [x62]
           (main_world [] [])
         = Handled (Some (JStr "s1"))
             (record_reading send "s1" 1 (inject_Z 40) C1_ts
                (main_world [] []))
      /\ t <$> (sensors (record_reading send "s1" 1 (inject_Z 40) C1_ts
                           (main_world [] [])) !! "s1"%string)
         = Some [1%Q])
  /\ (malformed_as_stated lenient_loads [x73] = true
      /\ handle_line lenient_loads numeral_float send None [x73]
           (main_world [] [])
         = Handled (Some (JStr "s1"))
             (record_reading send "s1" (Qmake 43 2) (inject_Z 40) C1_ts
                (main_world [] []))
      /\ t <$> (sensors (record_reading send "s1" (Qmake 43 2) (inject_Z 40)
                           C1_ts (main_world [] [])) !! "s1"%string)
         = Some [Qmake 43 2]).
Proof.
  split; [repeat split|].
  split.
  - split; [reflexivity|]. split; [reflexivity|].
    destruct (record_reading_effect "s1" 1 (inject_Z 40) C1_ts
                (main_world [] [])) as (Hs & _).
    cbv zeta in Hs. rewrite Hs, lookup_insert_eq. reflexivity.
  - split; [reflexivity|]. split; [reflexivity|].
    destruct (record_reading_effect "s1" (Qmake 43 2) (inject_Z 40) C1_ts
                (main_world [] [])) as (Hs & _).
    cbv zeta in Hs. rewrite Hs, lookup_insert_eq. reflexivity.
Qed.

(** A connection delivering a good line, a line without humidity and a
    second good line, cut into chunks in the middle of a line: the two good
    readings are recorded and logged, the other line leaves no trace, and
    the disconnect is logged at the end. *)
Example handle_demo :
  (fun w => (log_queue w, t <$> (sensors w !! "s1"%string))) <$>
    handle demo_loads demo_float send
      [[x67; x0a; x6d]; [x0a; x67]; [x0a]] (main_world [] [])
  = Some ([LogReading "s1" false 21 40; LogReading "s1" false 21 40;
           LogDisconnected (JStr "s1")],
          Some [21%Q; 21%Q]).
Proof. vm_compute. reflexivity. Qed.

(* ===================================================================== *)
(** ** More on [Stats]: what the averages and [last] are *)

Lemma drop_app_length' {A} (xs l : list A) n :
  length l = n -> drop (length (xs ++ l) - n) (xs ++ l) = l.
Proof.
  intros <-. rewrite length_app.
  replace (length xs + length l - length l)%nat with (length xs) by lia.
  apply drop_app_length.
Qed.

(** X1.  Once ten readings have gone in, everything [add] computes from the
    windows depends on those ten alone: two fresh objects fed different
    histories that end with the same ten readings have the same windows, the
    same averages and the same [last]. *)
Theorem add_all_last_ten (xs ys l : list reading) :
  length l = 10%nat ->
  let a := add_all Stats_init (xs ++ l) in
  let b := add_all Stats_init (ys ++ l) in
  t a = map temp_of l /\ h a = map hum_of l
  /\ t a = t b /\ h a = h b
  /\ avg_t a = avg_t b /\ avg_h a = avg_h b
  /\ last a = last b.
Proof.
  intros Hl a b.
  assert (Ht : forall zs, t (add_all Stats_init (zs ++ l)) = map temp_of l).
  { intros zs. rewrite window_t, map_app, <- (length_map temp_of (zs ++ l)), map_app.
    apply drop_app_length'. rewrite length_map. exact Hl. }
  assert (Hh : forall zs, h (add_all Stats_init (zs ++ l)) = map hum_of l).
  { intros zs. rewrite window_h, map_app, <- (length_map hum_of (zs ++ l)), map_app.
    apply drop_app_length'. rewrite length_map. exact Hl. }
  destruct l as [|r0 l0] using rev_ind; [discriminate|]. clear IHl0.
  assert (Hs : forall zs,
             add_all Stats_init (zs ++ l0 ++ [r0])
             = (add (add_all Stats_init (zs ++ l0)) (temp_of r0) (hum_of r0) r0.2).1).
  { intros zs. rewrite app_assoc. apply add_all_snoc. }
  assert (Ha : forall zs,
             avg_t (add_all Stats_init (zs ++ l0 ++ [r0]))
             = (py_sum (t (add_all Stats_init (zs ++ l0 ++ [r0])))
                / py_len (t (add_all Stats_init (zs ++ l0 ++ [r0]))))%Q
             /\ avg_h (add_all Stats_init (zs ++ l0 ++ [r0]))
             = (py_sum (h (add_all Stats_init (zs ++ l0 ++ [r0])))
                / py_len (h (add_all Stats_init (zs ++ l0 ++ [r0]))))%Q
             /\ last (add_all Stats_init (zs ++ l0 ++ [r0])) = last8 r0.2).
  { intros zs. rewrite (Hs zs). simpl. repeat split. }
  unfold a, b.
  destruct (Ha xs) as (Hax & Hhx & Hlx), (Ha ys) as (Hay & Hhy & Hly).
  rewrite Hax, Hay, Hhx, Hhy, Hlx, Hly, !Ht, !Hh. repeat split.
Qed.

Lemma add_all_last_ten_witness :
  length (C1_readings) = 10%nat
  /\ avg_t (add_all Stats_init ([C1_eleventh] ++ C1_readings))
     = avg_t (add_all Stats_init ([] ++ C1_readings)).
Proof.
  split; [reflexivity|].
  exact (proj1 (proj2 (proj2 (proj2 (proj2
    (add_all_last_ten [C1_eleventh] [] C1_readings eq_refl)))))).
Defined.

Lemma string_length_append (a b : string) :
  String.length (a ++ b) = (String.length a + String.length b)%nat.
Proof. induction a as [|c a IH]; simpl; [reflexivity | rewrite IH; reflexivity]. Qed.

Lemma substring_all (m : nat) (s : string) :
  (String.length s <= m)%nat -> String.substring 0 m s = s.
Proof.
  revert m. induction s as [|c s IH]; intros [|m] Hm; simpl in *;
    try reflexivity; try lia.
  rewrite IH by lia. reflexivity.
Qed.

Lemma substring_suffix (n m : nat) (s : string) :
  (n <= String.length s)%nat -> (String.length s - n <= m)%nat ->
  exists pre, s = (pre ++ String.substring n m s)%string
              /\ String.length pre = n.
Proof.
  revert s. induction n as [|n IH]; intros s Hn Hm.
  - exists ""%string. rewrite substring_all by lia. split; reflexivity.
  - destruct s as [|c s]; simpl in *; [lia|].
    destruct (IH s) as (pre & E & L); [lia | lia |].
    exists (String c pre). split; [|simpl; rewrite L; reflexivity].
    change (String c s = String c (pre ++ String.substring n m s)%string).
    f_equal. exact E.
Qed.

(** X3.  [add] stores in [last] the tail of the timestamp: the stored
    string is a suffix of [ts], eight characters long, or the whole of [ts]
    when [ts] has fewer than eight. *)
Theorem add_last_is_suffix (self : Stats) (tt hh : Q) (ts : string) :
  let st' := (add self tt hh ts).1 in
  (exists pre, ts = (pre ++ last st')%string)
  /\ String.length (last st') = Nat.min 8 (String.length ts)
  /\ ((String.length ts <= 8)%nat -> last st' = ts).
Proof.
  intros st'. assert (El : last st' = last8 ts) by reflexivity.
  rewrite El. clear El st'. unfold last8.
  destruct (substring_suffix (String.length ts - 8) 8 ts) as (pre & E & L);
    [lia | lia |].
  split; [exists pre; exact E|].
  split.
  - apply (f_equal String.length) in E.
    rewrite string_length_append, L in E. lia.
  - intros Hs. replace (String.length ts - 8)%nat with 0%nat by lia.
    apply substring_all. assumption.
Qed.

(* ===================================================================== *)
(** ** More on the listener: several sensors, framing, chunks *)

Lemma feed_all_snoc rs r w :
  feed_all (rs ++ [r]) w =
  record_reading send r.1 (temp_of r.2) (hum_of r.2) r.2.2 (feed_all rs w).
Proof. unfold feed_all. rewrite fold_left_app. reflexivity. Qed.

Lemma readings_of_snoc sid rs r :
  readings_of sid (rs ++ [r]) =
  readings_of sid rs ++ (if String.eqb r.1 sid then [r.2] else []).
Proof.
  unfold readings_of. rewrite List.filter_app, map_app. simpl.
  destruct (String.eqb r.1 sid); reflexivity.
Qed.

(** X4.  The table keeps one [Stats] per sensor id and a reading touches only
    the entry of its own sensor: after any interleaving of readings of any
    sensors, the entry of [sid] is what the entry it started from (a fresh
    [Stats] when there was none) becomes under the readings of [sid] alone, in
    their order; if none of the readings is for [sid] its entry is as it
    was. *)
Theorem feed_all_per_sensor (sid : string) (rs : list tagged) (w : world) :
  sensors (feed_all rs w) !! sid =
  match readings_of sid rs with
  | [] => sensors w !! sid
  | own => Some (add_all (default Stats_init (sensors w !! sid)) own)
  end.
Proof.
  induction rs as [|r rs IH] using rev_ind; [reflexivity|].
  rewrite feed_all_snoc, readings_of_snoc.
  destruct (record_reading_effect r.1 (temp_of r.2) (hum_of r.2) r.2.2
              (feed_all rs w)) as (Hs & _).
  rewrite Hs. destruct (String.eqb_spec r.1 sid) as [->|Hne].
  - rewrite lookup_insert_eq, IH.
    destruct (readings_of sid rs) as [|r0 own] eqn:E.
    + reflexivity.
    + exact (f_equal Some (eq_sym (add_all_snoc _ (r0 :: own) r.2))).
  - rewrite lookup_insert_ne by assumption. rewrite app_nil_r. exact IH.
Qed.

Lemma not_elem_of_rev {A} (x : A) (l : list A) : x ∉ l -> x ∉ rev l.
Proof. rewrite !list_elem_of_In, <- in_rev. auto. Qed.

Lemma frames_from_rev (cur acc b : list byte) :
  x0a ∉ cur ->
  frames_from acc (rev cur ++ b) = frames_from (cur ++ acc) b.
Proof.
  revert acc b. induction cur as [|c cur IH]; intros acc b Hc; [reflexivity|].
  apply not_elem_of_cons in Hc as [Hne Hc].
  simpl rev. rewrite <- app_assoc. simpl app.
  rewrite IH by assumption.
  simpl. destruct (Byte.eqb c x0a) eqn:E; [|reflexivity].
  apply Byte.byte_dec_bl in E. congruence.
Qed.

(** The complete lines and the rest of a buffer, read back. *)
Lemma frames_from_spec (buf cur : list byte) :
  x0a ∉ cur ->
  let '(lines, rest) := frames_from cur buf in
  rev cur ++ buf = unframe lines ++ rest
  /\ Forall (fun l => x0a ∉ l) lines
  /\ x0a ∉ rest.
Proof.
  revert cur. induction buf as [|c buf IH]; intros cur Hc; simpl.
  - unfold unframe. simpl. rewrite app_nil_r.
    repeat split; [constructor | apply not_elem_of_rev; exact Hc].
  - destruct (Byte.eqb c x0a) eqn:E.
    + apply Byte.byte_dec_bl in E. subst c.
      specialize (IH [] (not_elem_of_nil _)).
      destruct (frames_from [] buf) as [ls r]. destruct IH as (E1 & F1 & R1).
      simpl in E1. unfold unframe in *. simpl. rewrite <- !app_assoc. simpl.
      rewrite E1. repeat split; [|assumption].
      constructor; [apply not_elem_of_rev; exact Hc | assumption].
    + assert (Hc' : x0a ∉ c :: cur).
      { apply not_elem_of_cons. split; [|assumption].
        intros <-. vm_compute in E. discriminate. }
      specialize (IH (c :: cur) Hc').
      destruct (frames_from (c :: cur) buf) as [ls r].
      simpl in IH. rewrite <- app_assoc in IH. exact IH.
Qed.

(** X5.  Splitting a buffer at its newlines loses nothing: the lines found,
    each followed by a newline, and then the unterminated rest are exactly
    the bytes of the buffer; no line and no rest contains a newline. *)
Theorem frames_round_trip (buf : list byte) :
  buf = unframe (frames buf).1 ++ (frames buf).2
  /\ Forall (fun l => x0a ∉ l) (frames buf).1
  /\ x0a ∉ (frames buf).2.
Proof.
  pose proof (frames_from_spec buf [] (not_elem_of_nil _)) as H.
  unfold frames. destruct (frames_from [] buf) as [ls r]. exact H.
Qed.

Lemma frames_from_app (a b cur : list byte) :
  x0a ∉ cur ->
  frames_from cur (a ++ b) =
  let '(l1, r1) := frames_from cur a in
  let '(l2, r2) := frames_from [] (r1 ++ b) in
  (l1 ++ l2, r2).
Proof.
  revert cur. induction a as [|c a IH]; intros cur Hc; simpl.
  - rewrite (frames_from_rev cur [] b Hc), app_nil_r.
    destruct (frames_from cur b). reflexivity.
  - destruct (Byte.eqb c x0a) eqn:E.
    + rewrite (IH [] (not_elem_of_nil _)).
      destruct (frames_from [] a) as [l1 r1].
      destruct (frames_from [] (r1 ++ b)) as [l2 r2]. reflexivity.
    + apply IH. apply not_elem_of_cons. split; [|assumption].
      intros <-. vm_compute in E. discriminate.
Qed.

Lemma frames_app (a b : list byte) :
  frames (a ++ b) =
  ((frames a).1 ++ (frames ((frames a).2 ++ b)).1,
   (frames ((frames a).2 ++ b)).2).
Proof.
  unfold frames. rewrite (frames_from_app a b [] (not_elem_of_nil _)).
  destruct (frames_from [] a) as [l1 r1]. simpl.
  destruct (frames_from [] (r1 ++ b)) as [l2 r2]. reflexivity.
Qed.

(** [record_reading] with the real sender leaves the three events alone. *)
Lemma record_reading_flags sid tv hv ts w :
  let w' := record_reading send sid tv hv ts w in
  charging_event w' = charging_event w
  /\ listening_event w' = listening_event w
  /\ stop_event w' = stop_event w.
Proof.
  unfold record_reading.
  destruct (add (default Stats_init (sensors w !! sid)) tv hv ts) as [st' warn].
  destruct (Nat.eqb (length (t st')) 10); [|repeat split].
  match goal with |- context [send ?s ?a ?b ?n ?w0] =>
    pose proof (send_frame s a b n w0) as (_ & Hc & Hl & Hs)
  end.
  cbv zeta in *. rewrite Hc, Hl, Hs. repeat split.
Qed.

Section ListenerChunks.

Variable json_loads : list byte -> option json.
Variable float_of_string : string -> option Q.

Local Abbreviation handle_line' := (handle_line json_loads float_of_string).
Local Abbreviation handle_lines' := (handle_lines json_loads float_of_string).
Local Abbreviation handle_data' := (handle_data json_loads float_of_string).
Local Abbreviation handle_loop' := (handle_loop json_loads float_of_string).
Local Abbreviation handle' := (handle json_loads float_of_string).
Local Abbreviation malformed' := (malformed json_loads float_of_string).

Lemma handle_lines_app send_avg sid l1 l2 w :
  handle_lines' send_avg sid (l1 ++ l2) w =
  match handle_lines' send_avg sid l1 w with
  | Some (sid1, w1) => handle_lines' send_avg sid1 l2 w1
  | None => None
  end.
Proof.
  revert sid w. induction l1 as [|l l1 IH]; intros sid w; simpl; [reflexivity|].
  destruct (handle_line' send_avg sid l w); auto.
Qed.

(** Data handed over in two pieces is processed as in one piece, whatever
    the callback: the bytes left over from the first piece are kept and
    prefixed to the second. *)
Lemma handle_data_app send_avg c a b w :
  handle_data' send_avg c (a ++ b) w =
  match handle_data' send_avg c a w with
  | Some (c1, w1) => handle_data' send_avg c1 b w1
  | None => None
  end.
Proof.
  unfold handle_data. rewrite app_assoc, frames_app.
  destruct (frames (conn_buf c ++ a)) as [l1 r1]. simpl.
  rewrite handle_lines_app. unfold mbind, option_bind.
  destruct (handle_lines' send_avg (conn_sid c) l1 w) as [[sid1 w1]|];
    simpl; destruct (frames (r1 ++ b)) as [l2 r2]; reflexivity.
Qed.

Lemma handle_lines_flags sid lines : forall w sid' w',
  handle_lines' send sid lines w = Some (sid', w') ->
  listening_event w' = listening_event w /\ stop_event w' = stop_event w.
Proof.
  revert sid. induction lines as [|l lines IH]; intros sid w sid' w' H; simpl in H.
  - inversion H; subst. split; reflexivity.
  - unfold handle_line in H.
    destruct (try_block json_loads float_of_string sid l)
      as [sid1 [[[[s tv] hv] ts]|]]; [|eapply IH; eassumption].
    destruct s; try discriminate. destruct ts; try discriminate.
    destruct (IH _ _ _ _ H) as [H1 H2].
    match type of H1 with context [record_reading send ?a ?b ?c ?d ?e] =>
      destruct (record_reading_flags a b c d e) as (_ & Hl & Hs)
    end.
    cbv zeta in *. split; congruence.
Qed.

(** X6.  The result of a connection does not depend on how TCP cut the
    stream into chunks: while the listener stays enabled and not stopped,
    handling the non-empty chunks one [recv] at a time gives the same
    connection state and the same world as handling all their bytes at
    once. *)
Theorem handle_loop_chunking (c : conn_state) (d : list byte)
    (ds : list (list byte)) (w : world) :
  Forall (fun x => x <> []) (d :: ds) ->
  stop_event w = false ->
  listening_event w = true ->
  handle_loop' send c (d :: ds) w = handle_data' send c (concat (d :: ds)) w.
Proof.
  revert c d w. induction ds as [|d2 ds IH]; intros c d w HF Hs Hl.
  - simpl. rewrite Hs, Hl, app_nil_r. simpl.
    destruct d; [inversion HF; contradiction|].
    unfold mbind, option_bind.
    destruct (handle_data' send c (b :: d) w) as [[c1 w1]|]; reflexivity.
  - inversion HF as [|? ? Hd HF']; subst.
    change (concat (d :: d2 :: ds)) with (d ++ concat (d2 :: ds)).
    rewrite handle_data_app.
    change (handle_loop' send c (d :: d2 :: ds) w)
      with (if negb (stop_event w) && listening_event w
            then match d with
                 | [] => Some (c, w)
                 | _ :: _ =>
                     handle_data' send c d w ≫=
                       (fun '(c', w') => handle_loop' send c' (d2 :: ds) w')
                 end
            else Some (c, w)).
    rewrite Hs, Hl. simpl negb. simpl andb. cbv iota.
    destruct d as [|b d]; [contradiction|].
    unfold mbind, option_bind.
    destruct (handle_data' send c (b :: d) w) as [[c1 w1]|] eqn:E; [|reflexivity].
    assert (Hflags : listening_event w1 = listening_event w
                     /\ stop_event w1 = stop_event w).
    { unfold handle_data in E.
      destruct (frames (conn_buf c ++ b :: d)) as [ls r].
      unfold mbind, option_bind in E.
      destruct (handle_lines' send (conn_sid c) ls w) as [[sid1 w1']|] eqn:E1;
        [|discriminate].
      inversion E; subst. eapply handle_lines_flags. eassumption. }
    destruct Hflags as [Hl1 Hs1].
    apply IH; [assumption | congruence | congruence].
Qed.

Lemma handle_lines_malformed send_avg lines : forall sid w,
  Forall (fun l => malformed' l = true) lines ->
  exists sid', handle_lines' send_avg sid lines w = Some (sid', w).
Proof.
  induction lines as [|l lines IH]; intros sid w HF.
  - exists sid. reflexivity.
  - inversion HF as [|? ? Hm HF']; subst.
    apply (handle_line_dropped json_loads float_of_string send_avg sid l w)
      in Hm as [sid1 E].
    simpl. rewrite E. apply IH. assumption.
Qed.

Lemma handle_loop_malformed send_avg chunks : forall c w,
  Forall (fun l => malformed' l = true)
         (frames (conn_buf c ++ concat chunks)).1 ->
  exists c', handle_loop' send_avg c chunks w = Some (c', w).
Proof.
  induction chunks as [|data more IH]; intros c w HF.
  - exists c. reflexivity.
  - simpl. destruct (negb (stop_event w) && listening_event w); [|eauto].
    destruct data as [|b data]; [eauto|].
    change (concat ((b :: data) :: more))
      with ((b :: data) ++ concat more) in HF.
    rewrite app_assoc, frames_app in HF. simpl in HF.
    apply Forall_app in HF as [HF1 HF2].
    unfold handle_data.
    destruct (frames (conn_buf c ++ b :: data)) as [l1 r1]. simpl in *.
    destruct (handle_lines_malformed send_avg l1 (conn_sid c) w HF1) as [sid1 E].
    rewrite E. simpl.
    apply (IH {| conn_sid := sid1; conn_buf := r1 |} w). exact HF2.
Qed.

(** X7.  A peer that sends nothing but malformed lines cannot change
    anything the gateway keeps: whatever the chunks and whatever the
    callback, the world after the connection is the world before it, or the
    world before it with the single "disconnected" entry added to the log. *)
Theorem handle_garbage_is_harmless
    (send_avg : string -> Q -> Q -> nat -> world -> world)
    (chunks : list (list byte)) (w : world) :
  Forall (fun l => malformed' l = true) (frames (concat chunks)).1 ->
  handle' send_avg chunks w = Some w
  \/ exists sid, handle' send_avg chunks w = Some (log_put (LogDisconnected sid) w).
Proof.
  intros HF.
  destruct (handle_loop_malformed send_avg chunks conn_init w HF) as [c' E].
  unfold handle. rewrite E. simpl.
  destruct (conn_sid c') as [sid|]; [|left; reflexivity].
  destruct (truthy sid); [right; eauto | left; reflexivity].
Qed.

End ListenerChunks.

Lemma handle_loop_chunking_witness :
  handle_loop demo_loads demo_float send conn_init
    [[x67; x0a; x6d]; [x0a; x67]; [x0a]] (main_world [] [])
  = handle_data demo_loads demo_float send conn_init
      [x67; x0a; x6d; x0a; x67; x0a] (main_world [] []).
Proof.
  apply (handle_loop_chunking demo_loads demo_float conn_init
           [x67; x0a; x6d] [[x0a; x67]; [x0a]] (main_world [] [])).
  - repeat constructor; discriminate.
  - reflexivity.
  - reflexivity.
Defined.

Lemma handle_garbage_is_harmless_witness :
  Forall (fun l => malformed demo_loads demo_float l = true)
         (frames (concat [[x7b; x0a; x6e]; [x0a]])).1
  /\ (handle demo_loads demo_float send [[x7b; x0a; x6e]; [x0a]]
        (main_world [] []) = Some (main_world [] [])
      \/ exists sid,
          handle demo_loads demo_float send [[x7b; x0a; x6e]; [x0a]]
            (main_world [] [])
          = Some (log_put (LogDisconnected sid) (main_world [] []))).
Proof.
  split; [repeat constructor|].
  apply (handle_garbage_is_harmless demo_loads demo_float send
           [[x7b; x0a; x6e]; [x0a]] (main_world [] [])).
  repeat constructor.
Defined.

(* ===================================================================== *)
(** ** More on the sender and the flush routine *)

Lemma send_calls_sent cs : forall w,
  all_sent cs w = true ->
  exists new,
    built (send_calls cs w) = built w ++ new
    /\ delivered (net (send_calls cs w)) = delivered (net w) ++ new
    /\ map call_of new = map rounded cs
    /\ packet_queue (send_calls cs w) = packet_queue w
    /\ log_queue (send_calls cs w) = log_queue w
    /\ sock (send_calls cs w) = (match cs with [] => sock w | _ => true end)
    /\ connects (net (send_calls cs w)) =
         (connects (net w)
          + match cs with [] => 0 | _ => if sock w then 0 else 1 end)%nat.
Proof.
  induction cs as [|c cs IH]; intros w Hs.
  - exists []. simpl. rewrite !app_nil_r, Nat.add_0_r. repeat split.
  - destruct c as [[[sid a] b] n]. simpl in Hs.
    apply andb_true_iff in Hs as [Ho Hs].
    change (send1 w (sid, a, b, n)) with (send sid a b n w) in Hs.
    destruct (send_outcome w) eqn:Eo; try discriminate. clear Ho.
    pose proof (send_effect sid a b n w) as (Hb & Hn & Hq & Hl & Hso).
    cbv zeta in Hb, Hn, Hq, Hl, Hso. unfold send_ops in Hn.
    rewrite Eo in Hn, Hq, Hl, Hso.
    destruct (IH _ Hs) as (new & H1 & H2 & H3 & H4 & H5 & H6 & H7).
    exists (packet_of sid a b n w :: new).
    rewrite send_calls_cons, H1, H2, H4, H5, H7, Hb, Hq, Hl, Hn, Hso.
    rewrite !delivered_app, !connects_app, <- !app_assoc.
    split; [reflexivity|].
    split; [destruct (sock w); simpl; rewrite ?app_nil_r; reflexivity|].
    split; [simpl; rewrite H3; reflexivity|].
    split; [reflexivity|]. split; [reflexivity|].
    split; [rewrite H6, Hso; destruct cs; reflexivity|].
    destruct cs, (sock w); simpl; lia.
Qed.

(** X8.  While running with the collector reachable the sender keeps one
    connection: a run of successful [send] calls opens a connection only if
    none was open at its start, never a second one, leaves the handle open,
    transmits the packets in call order, and leaves the queue and the log as
    they were. *)
Theorem send_reuses_connection (c : send_call) (cs : list send_call)
    (w : world) :
  all_sent (c :: cs) w = true ->
  let w' := send_calls (c :: cs) w in
  sock w' = true
  /\ connects (net w') = (connects (net w) + if sock w then 0 else 1)%nat
  /\ packet_queue w' = packet_queue w
  /\ log_queue w' = log_queue w
  /\ exists new,
       built w' = built w ++ new
       /\ delivered (net w') = delivered (net w) ++ new
       /\ map call_of new = map rounded (c :: cs).
Proof.
  intros Hs w'.
  destruct (send_calls_sent (c :: cs) w Hs)
    as (new & H1 & H2 & H3 & H4 & H5 & H6 & H7).
  fold w' in H1, H2, H4, H5, H6, H7.
  repeat split; try assumption. exists new. auto.
Qed.

Lemma send_reuses_connection_witness :
  all_sent C9_calls reuse_world = true
  /\ connects (net (send_calls C9_calls reuse_world)) = 1%nat.
Proof.
  split; [reflexivity|].
  exact (proj1 (proj2 (send_reuses_connection
                         ("s1"%string, 21%Q, 40%Q, 0%nat)
                         [("s2"%string, 22%Q, 41%Q, 1%nat);
                          ("s1"%string, 23%Q, 42%Q, 0%nat)]
                         reuse_world eq_refl))).
Defined.

Lemma flush_loop_up fuel : forall w,
  (length (packet_queue w) < fuel)%nat ->
  take (2 * length (packet_queue w)) (net_tape w)
    = replicate (2 * length (packet_queue w)) true ->
  exists w',
    flush_loop fuel w = Some (w', length (packet_queue w))
    /\ packet_queue w' = []
    /\ net_tape w' = drop (2 * length (packet_queue w)) (net_tape w)
    /\ delivered (net w') = delivered (net w) ++ packet_queue w
    /\ connects (net w') = (connects (net w) + length (packet_queue w))%nat
    /\ log_queue w' =
         log_queue w ++ replicate (length (packet_queue w)) LogQueuedSent.
Proof.
  induction fuel as [|fuel IH]; intros w Hlen Htape; [lia|].
  simpl. destruct (packet_queue w) as [|p rest] eqn:Eq.
  - exists w. simpl. rewrite Eq, !app_nil_r, Nat.add_0_r. repeat split.
  - simpl length in *.
    replace (2 * S (length rest))%nat with (S (S (2 * length rest))) in * by lia.
    destruct (net_tape w) as [|o1 [|o2 tape]] eqn:Et; simpl in Htape;
      try discriminate.
    inversion Htape as [[E1 E2 Ht]]. subst o1 o2.
    destruct (flush_body_up w p rest tape Eq Et) as (w1 & Hb & Hq1 & Ht1 & Hn1 & Hl1).
    rewrite Hb.
    destruct (IH w1) as (w' & Hloop & Hq & Htp & Hd & Hc & Hl).
    { rewrite Hq1. lia. }
    { rewrite Hq1, Ht1. exact Ht. }
    rewrite Hq1 in *. rewrite Hloop. exists w'.
    split; [reflexivity|]. split; [assumption|].
    split; [rewrite Htp, Ht1;
            replace (S (length rest) + (S (length rest) + 0))%nat
              with (S (S (2 * length rest))) by lia;
            reflexivity|].
    split; [rewrite Hd, Hn1, delivered_app; simpl; rewrite <- app_assoc;
            reflexivity|].
    split; [rewrite Hc, Hn1, connects_app; simpl; lia|].
    rewrite Hl, Hl1, <- app_assoc. reflexivity.
Qed.

(** X9.  When the collector accepts every connection and every
    transmission of a flush, the flush empties the queue: all queued packets
    are delivered, oldest first, over one connection each, one "queued
    summary sent" entry is logged per packet, and two tape outcomes are
    consumed per packet. *)
Theorem flush_queue_collector_up (w : world) :
  take (2 * length (packet_queue w)) (net_tape w)
    = replicate (2 * length (packet_queue w)) true ->
  let w' := flush_queue w in
  packet_queue w' = []
  /\ delivered (net w') = delivered (net w) ++ packet_queue w
  /\ connects (net w') = (connects (net w) + length (packet_queue w))%nat
  /\ log_queue w' =
       log_queue w ++ replicate (length (packet_queue w)) LogQueuedSent
  /\ net_tape w' = drop (2 * length (packet_queue w)) (net_tape w).
Proof.
  intros Htape w'.
  destruct (flush_loop_up (flush_fuel w) w) as (w1 & Hloop & Hq & Ht & Hd & Hc & Hl);
    [unfold flush_fuel; lia | assumption |].
  assert (E : w' = w1) by (unfold w', flush_queue; rewrite Hloop; reflexivity).
  rewrite E. auto.
Qed.

Lemma flush_queue_collector_up_witness :
  packet_queue (flush_queue flush_up_world) = []
  /\ delivered (net (flush_queue flush_up_world)) = flush_packets.
Proof.
  pose proof (flush_queue_collector_up flush_up_world eq_refl) as (Hq & Hd & _).
  split; [exact Hq | exact Hd].
Defined.

(* ===================================================================== *)
(** ** The gateway as a whole: what every interleaving preserves *)

(** Lines 159-164 with the real sender: the table entry and the log are
    written, and then [send] is called or not. *)
Lemma record_reading_cases sid tv hv ts w :
  let st' := (add (default Stats_init (sensors w !! sid)) tv hv ts).1 in
  let w1 := log_put (LogReading sid (bad tv hv) tv hv)
              (set_sensors (fun m => <[sid := st']> m) w) in
  record_reading send sid tv hv ts w = w1
  \/ record_reading send sid tv hv ts w
     = send sid (avg_t st') (avg_h st') (anom st') w1.
Proof.
  intros st' w1. unfold record_reading.
  change (add (default Stats_init (sensors w !! sid)) tv hv ts)
    with (st', bad tv hv).
  cbv iota beta. fold w1.
  destruct (Nat.eqb (length (t st')) 10); [right | left]; reflexivity.
Qed.

Lemma flush_queue_spec w :
  exists k,
    packet_queue (flush_queue w) = drop k (packet_queue w)
    /\ delivered (net (flush_queue w))
       = delivered (net w) ++ take k (packet_queue w)
    /\ same_outside_flush w (flush_queue w).
Proof.
  destruct (flush_loop_spec (flush_fuel w) w)
    as (w1 & n & k & Hloop & Hs & _ & Hq & Hd & _);
    [unfold flush_fuel; lia|].
  unfold flush_queue. rewrite Hloop. exists k. auto.
Qed.

(** What one battery tick does to the world. *)
Lemma battery_tick_world b w :
  (battery_tick b w).2 = w
  \/ (battery_tick b w).2
     = log_put LogBatteryLow
         (set_charging_event true (set_listening_event false w))
  \/ (battery_tick b w).2
     = flush_queue
         (log_put LogBatteryFull
            (set_charging_event false (set_listening_event true w))).
Proof.
  unfold battery_tick.
  destruct (is_discharging b && _); [right; left; reflexivity|].
  destruct (negb (is_discharging b) && _); [right; right | left]; reflexivity.
Qed.

Lemma run_snoc acts a s : run (acts ++ [a]) s = act a (run acts s).
Proof. unfold run. rewrite fold_left_app. reflexivity. Qed.

Lemma send_conserved sid a b n w : conserved w -> conserved (send sid a b n w).
Proof.
  unfold conserved. intros H.
  pose proof (send_effect sid a b n w) as (Hb & Hn & Hq & _).
  cbv zeta in Hb, Hn, Hq. rewrite Hb, Hn, Hq, delivered_app, H.
  unfold send_ops.
  destruct (send_outcome w), (sock w); simpl; rewrite ?app_nil_r;
    rewrite <- ?app_assoc; try reflexivity;
    rewrite (Permutation_app_comm (packet_queue w) [_]); reflexivity.
Qed.

Lemma flush_conserved w : conserved w -> conserved (flush_queue w).
Proof.
  unfold conserved. intros H.
  destruct (flush_queue_spec w) as (k & Hq & Hd & Hs).
  destruct Hs as (_ & _ & _ & _ & _ & _ & Hb).
  rewrite Hb, Hq, Hd, H, <- app_assoc, take_drop. reflexivity.
Qed.

Lemma act_conserved a s : conserved s.2 -> conserved (act a s).2.
Proof.
  destruct a as [sid r|]; simpl; intros H.
  - destruct (record_reading_cases sid (temp_of r) (hum_of r) r.2 s.2)
      as [E|E]; rewrite E; [exact H | apply send_conserved; exact H].
  - destruct (battery_tick_world s.1 s.2) as [E|[E|E]]; rewrite E;
      [exact H | exact H | apply flush_conserved; exact H].
Qed.

(** X10.  Nothing is lost and nothing is sent twice.  From the start of
    [main], after any interleaving of readings and battery ticks and for
    every pattern of network outcomes, the packets built so far are exactly,
    counted with multiplicity, the packets delivered to the collector
    together with the packets waiting in the queue. *)
Theorem run_conserves_packets (acts : list action) (tape : list bool)
    (times : list string) :
  let w := (run acts (boot tape times)).2 in
  built w ≡ₚ delivered (net w) ++ packet_queue w.
Proof.
  induction acts as [|a acts IH] using rev_ind; [reflexivity|].
  rewrite run_snoc. apply act_conserved. exact IH.
Qed.




Lemma act_battery_inv a s : battery_inv s.1 s.2 -> battery_inv (act a s).1 (act a s).2.
Proof.
  destruct a as [sid r|]; simpl; intros H; [|apply battery_tick_inv; exact H].
  destruct (record_reading_flags sid (temp_of r) (hum_of r) r.2 s.2)
    as (Hc & Hl & _).
  destruct H as (H1 & H2 & H3). cbv zeta in *.
  unfold battery_inv. rewrite Hc, Hl. auto.
Qed.

(** X12.  The events follow the battery mode under every interleaving:
    whatever readings arrive between the ticks, the level stays between 15
    and 100, [listening_event] is set exactly while discharging and
    [charging_event] exactly while charging. *)
Theorem run_flags_follow_battery (acts : list action) (tape : list bool)
    (times : list string) :
  let s := run acts (boot tape times) in
  15 <= battery_level s.1 <= 100
  /\ listening_event s.2 = is_discharging s.1
  /\ charging_event s.2 = negb (is_discharging s.1).
Proof.
  intros s.
  assert (H : battery_inv s.1 s.2).
  { unfold s. induction acts as [|a acts IH] using rev_ind.
    - unfold battery_inv. simpl. repeat split; lia.
    - rewrite run_snoc. apply act_battery_inv. exact IH. }
  destruct H as (H1 & H2 & H3).
  split; [destruct (is_discharging s.1); lia | split; assumption].
Qed.

Lemma counts_monotone_snoc ps q :
  counts_monotone ps ->
  (forall p, p ∈ ps -> sensor_id p = sensor_id q ->
     (anomaly_count p <= anomaly_count q)%nat) ->
  counts_monotone (ps ++ [q]).
Proof.
  intros Hm Hq i j p1 p2 Hij H1 H2 Hsid.
  destruct (Nat.lt_ge_cases j (length ps)) as [Hj|Hj].
  - rewrite lookup_app_l in H1 by lia. rewrite lookup_app_l in H2 by lia.
    exact (Hm i j p1 p2 Hij H1 H2 Hsid).
  - rewrite lookup_app_r in H2 by lia.
    destruct (j - length ps)%nat eqn:Ej; simpl in H2; [|discriminate].
    inversion H2; subst p2.
    destruct (Nat.lt_ge_cases i (length ps)) as [Hi|Hi].
    + rewrite lookup_app_l in H1 by lia.
      apply Hq; [|assumption]. eapply list_elem_of_lookup_2. eassumption.
    + rewrite lookup_app_r in H1 by lia.
      destruct (i - length ps)%nat eqn:Ei; simpl in H1; [|discriminate].
      inversion H1; subst. lia.
Qed.

Lemma add_anom_le self tt hh ts : (anom self <= anom (add self tt hh ts).1)%nat.
Proof. simpl. destruct (bad tt hh); lia. Qed.

Lemma act_counts a s :
  counts_monotone (built s.2) /\ counts_bounded s.2 ->
  counts_monotone (built (act a s).2) /\ counts_bounded (act a s).2.
Proof.
  intros [Hm Hb]. destruct a as [sid r|]; simpl.
  - set (w := s.2) in *.
    set (st' := (add (default Stats_init (sensors w !! sid))
                   (temp_of r) (hum_of r) r.2).1).
    destruct (record_reading_effect sid (temp_of r) (hum_of r) r.2 w)
      as (Hs & now & Hbuilt).
    fold st' in Hs, Hbuilt.
    assert (Hold : forall p, p ∈ built w ->
              exists st, <[sid := st']> (sensors w) !! sensor_id p = Some st
                         /\ (anomaly_count p <= anom st)%nat).
    { intros p Hp. destruct (Hb p Hp) as (st & Hst & Hle).
      destruct (decide (sid = sensor_id p)) as [Heq|Hne].
      - exists st'. rewrite <- Heq in Hst. rewrite <- Heq, lookup_insert_eq.
        split; [reflexivity|].
        unfold st'. rewrite Hst. simpl default.
        etransitivity; [exact Hle | apply add_anom_le].
      - exists st. rewrite lookup_insert_ne by assumption. auto. }
    rewrite Hbuilt. destruct (Nat.eqb (length (t st')) 10).
    + split.
      * apply counts_monotone_snoc; [exact Hm|].
        intros p Hp Hsid. destruct (Hold p Hp) as (st & Hst & Hle).
        simpl in Hsid. rewrite Hsid, lookup_insert_eq in Hst.
        inversion Hst; subst st. exact Hle.
      * intros p Hp. rewrite Hbuilt in Hp.
        apply elem_of_app in Hp as [Hp|Hp].
        -- rewrite Hs. apply Hold. exact Hp.
        -- apply list_elem_of_singleton in Hp. subst p. simpl.
           exists st'. rewrite Hs, lookup_insert_eq. auto.
    + rewrite app_nil_r. split; [exact Hm|].
      intros p Hp. rewrite Hbuilt, app_nil_r in Hp. rewrite Hs.
      apply Hold. exact Hp.
  - assert (E : built (battery_tick s.1 s.2).2 = built s.2
                /\ sensors (battery_tick s.1 s.2).2 = sensors s.2).
    { destruct (battery_tick_world s.1 s.2) as [E|[E|E]]; rewrite E;
        try (split; reflexivity).
      destruct (flush_queue_frame
                  (log_put LogBatteryFull
                     (set_charging_event false
                        (set_listening_event true s.2))))
        as (Hsens & _ & _ & _ & _ & _ & Hbuilt).
      rewrite Hsens, Hbuilt. split; reflexivity. }
    destruct E as [Eb Es]. unfold counts_bounded. rewrite Eb, Es. auto.
Qed.

(** X13.  The anomaly count reported for a sensor never goes down: after
    any interleaving of readings and battery ticks, of two packets built for
    the same sensor the later one carries an anomaly count at least as large
    as the earlier one, and no packet carries more than the sensor's current
    counter. *)
Theorem run_anomaly_counts_monotone (acts : list action) (tape : list bool)
    (times : list string) :
  let w := (run acts (boot tape times)).2 in
  counts_monotone (built w) /\ counts_bounded w.
Proof.
  induction acts as [|a acts IH] using rev_ind.
  - split.
    + intros i j p q _ H. destruct i; discriminate.
    + intros p Hp. apply elem_of_nil in Hp. contradiction.
  - rewrite run_snoc. apply act_counts. exact IH.
Qed.

(** X14.  Buffer and forward.  Summaries sent while the gateway is charging
    are all delivered by the tick that brings the battery to full charge,
    when the collector accepts them: after that tick the queue is empty, the
    packets built for the calls were transmitted in call order after
    whatever had been delivered before, and the gateway is listening and no
    longer charging. *)
Theorem charging_then_full_delivers (b : battery_state) (cs : list send_call)
    (w : world) :
  is_discharging b = false ->
  99 <= battery_level b ->
  charging_event w = true ->
  packet_queue w = [] ->
  take (2 * length cs) (net_tape w) = replicate (2 * length cs) true ->
  let w1 := send_calls cs w in
  let s2 := battery_tick b w1 in
  is_discharging s2.1 = true
  /\ listening_event s2.2 = true /\ charging_event s2.2 = false
  /\ packet_queue s2.2 = []
  /\ exists new,
       built w1 = built w ++ new
       /\ map call_of new = map rounded cs
       /\ delivered (net s2.2) = delivered (net w) ++ new.
Proof.
  intros Hd Hlev Hc Hq Htape w1 s2.
  destruct (send_calls_charging cs w Hc) as (new & Hb & Hq1 & Hm & Hn & _).
  fold w1 in Hb, Hq1, Hn. rewrite Hq in Hq1. simpl in Hq1.
  assert (Hlen : length new = length cs).
  { rewrite <- (length_map call_of new), Hm, length_map. reflexivity. }
  assert (Htape1 : net_tape w1 = net_tape w).
  { unfold w1. clear -Hc. revert w Hc.
    induction cs as [|[[[sid a] b] n] cs IH]; intros w Hc; [reflexivity|].
    rewrite send_calls_cons.
    pose proof (send_frame sid a b n w) as (_ & Hc' & _). cbv zeta in Hc'.
    rewrite IH by congruence.
    clear -Hc. world_cases w; try discriminate; reflexivity. }
  set (w1' := log_put LogBatteryFull
                (set_charging_event false (set_listening_event true w1))).
  assert (E : s2 = ({| battery_level := battery_level b + 1;
                       is_discharging := true;
                       gui_batt := battery_level b + 1 |},
                    flush_queue w1')).
  { unfold s2, battery_tick. rewrite Hd. simpl.
    destruct (Z.leb_spec 100 (battery_level b + 1)); [reflexivity | lia]. }
  rewrite E. simpl.
  destruct (flush_queue_frame w1') as (_ & _ & Hch & Hli & _).
  assert (Hup : take (2 * length (packet_queue w1')) (net_tape w1')
                = replicate (2 * length (packet_queue w1')) true).
  { change (packet_queue w1') with (packet_queue w1).
    change (net_tape w1') with (net_tape w1).
    rewrite Hq1, Htape1, Hlen. exact Htape. }
  destruct (flush_loop_up (flush_fuel w1') w1') as (w3 & Hloop & Hq3 & _ & Hd3 & _);
    [unfold flush_fuel; lia | exact Hup |].
  assert (E3 : flush_queue w1' = w3)
    by (unfold flush_queue; rewrite Hloop; reflexivity).
  rewrite Hch, Hli, E3.
  split; [reflexivity|]. split; [reflexivity|]. split; [reflexivity|].
  split; [assumption|].
  exists new. split; [assumption|]. split; [assumption|].
  rewrite Hd3. change (net w1') with (net w1). change (packet_queue w1') with (packet_queue w1).
  rewrite Hn, Hq1. reflexivity.
Qed.

Lemma charging_then_full_delivers_witness :
  let s2 := battery_tick (mkBattery 99 false 99) (send_calls C9_calls charged_world) in
  packet_queue s2.2 = [] /\ listening_event s2.2 = true.
Proof.
  pose proof (charging_then_full_delivers (mkBattery 99 false 99) C9_calls
                charged_world eq_refl ltac:(simpl; lia) eq_refl eq_refl eq_refl)
    as (_ & Hl & _ & Hq & _).
  split; [exact Hq | exact Hl].
Defined.

(* ===================================================================== *)
(** ** More on the battery controller: the cycle *)

Lemma battery_run_snoc n : forall b w,
  battery_run (S n) b w =
  battery_tick (battery_run n b w).1 (battery_run n b w).2.
Proof.
  induction n as [|n IH]; intros b w.
  - simpl. destruct (battery_tick b w). reflexivity.
  - change (battery_run (S (S n)) b w)
      with (let (b', w') := battery_tick b w in battery_run (S n) b' w').
    change (battery_run (S n) b w)
      with (let (b', w') := battery_tick b w in battery_run n b' w').
    destruct (battery_tick b w) as [b' w']. apply IH.
Qed.

Lemma battery_tick_phase n w :
  (battery_tick (battery_phase n) w).1 = battery_phase (S n).
Proof.
  unfold battery_phase, battery_tick.
  rewrite Nat2Z.inj_succ.
  set (x := Z.of_nat n).
  assert (Hm : 0 <= x mod 170 < 170) by (apply Z.mod_pos_bound; lia).
  assert (Hs : Z.succ x mod 170
               = if x mod 170 =? 169 then 0 else x mod 170 + 1).
  { destruct (Z.eqb_spec (x mod 170) 169) as [E|E].
    - rewrite <- Z.add_1_r, <- Zplus_mod_idemp_l, E. reflexivity.
    - rewrite <- Z.add_1_r, <- Zplus_mod_idemp_l.
      apply Z.mod_small. lia. }
  rewrite Hs. clear Hs.
  destruct (Z.eqb_spec (x mod 170) 169) as [E|E].
  - rewrite E. reflexivity.
  - destruct (Z.ltb_spec (x mod 170) 85) as [H1|H1];
      destruct (Z.ltb_spec (x mod 170 + 1) 85) as [H2|H2]; simpl;
      repeat match goal with
             | |- context [?a <=? ?b] => destruct (Z.leb_spec a b); simpl
             end;
      try lia; f_equal; lia.
Qed.

(** X15.  The battery cycles with a period of 170 ticks whatever happens in
    the rest of the gateway: after [n] ticks from the start, with any
    readings in between and from any world, the level is [100 - m] and the
    mode discharging when [m = n mod 170] is below 85, and the level is
    [m - 70] and the mode charging otherwise; the number shown to the GUI is
    the level. *)
Theorem battery_run_phase (n : nat) (w : world) (acts : list action)
    (tape : list bool) (times : list string) :
  (battery_run n battery_init w).1 = battery_phase n
  /\ (run acts (boot tape times)).1 = battery_phase (ticks acts).
Proof.
  split.
  - induction n as [|m IH]; [reflexivity|].
    rewrite battery_run_snoc, IH. apply battery_tick_phase.
  - induction acts as [|a acts IH] using rev_ind; [reflexivity|].
    rewrite run_snoc. unfold ticks in *. rewrite List.filter_app, length_app.
    destruct a as [sid r|]; simpl.
    + rewrite Nat.add_0_r. exact IH.
    + rewrite IH, Nat.add_1_r. apply battery_tick_phase.
Qed.

(* ===================================================================== *)
(** ** The accept loop *)

Lemma listener_pass_steady e s s' :
  steady e ->
  listener_pass e s = Some s' ->
  lsock s' = env_listening_2 e
  /\ started (ltrace s') = started (ltrace s) ++ from_option (fun c => [c]) [] (offered e)
  /\ switches (ltrace s')
     = switches (ltrace s)
       ++ (if Bool.eqb (env_listening_2 e) (lsock s) then []
           else [if env_listening_2 e then ListenerOn else ListenerPaused]).
Proof.
  unfold steady, listener_pass, offered, started, switches.
  destruct e as [l1 l2 bind acc], s as [sock0 tr]. simpl. intros ->.
  destruct l2, sock0, bind, acc; simpl; intros H; inversion H; subst; simpl;
    rewrite ?omap_app, ?List.filter_app, ?app_nil_r; simpl;
    rewrite ?app_nil_r; repeat split.
Qed.

Lemma last_cons_default {A} (l : list A) : forall x d,
  List.last (x :: l) d = List.last l x.
Proof.
  induction l as [|y l IH]; intros x d; [reflexivity|].
  change (List.last (x :: y :: l) d) with (List.last (y :: l) d).
  rewrite (IH y d), (IH y x). reflexivity.
Qed.

Lemma listener_run_steady envs : forall s s',
  Forall steady envs ->
  listener_run envs s = Some s' ->
  lsock s' = List.last (map env_listening_2 envs) (lsock s)
  /\ started (ltrace s') = started (ltrace s) ++ omap offered envs
  /\ switches (ltrace s')
     = switches (ltrace s) ++ toggles (lsock s) (map env_listening_2 envs).
Proof.
  induction envs as [|e envs IH]; intros s s' HF H.
  - inversion H; subst. simpl. rewrite !app_nil_r. repeat split.
  - inversion HF as [|? ? He HF']; subst. simpl in H.
    destruct (listener_pass e s) as [s1|] eqn:E; [|discriminate]. simpl in H.
    destruct (listener_pass_steady e s s1 He E) as (H1 & H2 & H3).
    destruct (IH s1 s' HF' H) as (H4 & H5 & H6).
    rewrite H4, H5, H6, H1, H2, H3, <- !app_assoc.
    split; [simpl map; rewrite last_cons_default; reflexivity|].
    split; [simpl; destruct (offered e); reflexivity | reflexivity].
Qed.

Lemma listener_pass_enabled e s s' :
  listener_pass e s = Some s' ->
  (lsock s' = true -> env_listening_2 e = true)
  /\ sublist (started (ltrace s'))
       (started (ltrace s) ++ from_option (fun c => [c]) [] (offered e)).
Proof.
  unfold listener_pass, offered, started.
  destruct e as [l1 l2 bind acc], s as [sock0 tr]. simpl.
  destruct l1, l2, sock0, bind, acc; simpl; intros H; inversion H; subst;
    simpl; rewrite ?omap_app, ?app_nil_r; simpl; rewrite ?app_nil_r;
    split; try reflexivity; try discriminate;
    try (apply sublist_inserts_r; reflexivity).
Qed.

(** X16.  The accept loop follows [listening_event].  When the flag does
    not change in the middle of a pass and no exception leaves the loop,
    then after the passes the socket is open exactly if the flag was set in
    the last pass, the workers started are exactly the connections that
    arrived in passes with the flag set, in order, and "on" and "paused" are
    logged exactly at the changes of the flag, starting from a closed
    socket.  Without that assumption it still holds that every worker
    started belongs to a connection that arrived in a pass whose second test
    found the flag set. *)
Theorem listener_follows_flag (envs : list pass_env) (s : listener_state) :
  listener_run envs listener_init = Some s ->
  sublist (started (ltrace s)) (omap offered envs)
  /\ (Forall steady envs ->
      lsock s = List.last (map env_listening_2 envs) false
      /\ started (ltrace s) = omap offered envs
      /\ switches (ltrace s) = toggles false (map env_listening_2 envs)).
Proof.
  intros H. split.
  - assert (G : forall envs s0 s1,
               listener_run envs s0 = Some s1 ->
               sublist (started (ltrace s1))
                       (started (ltrace s0) ++ omap offered envs)).
    { clear. induction envs as [|e envs IH]; intros s0 s1 H.
      - inversion H; subst. simpl. rewrite app_nil_r. reflexivity.
      - simpl in H.
        destruct (listener_pass e s0) as [s'|] eqn:E; [|discriminate].
        simpl in H. destruct (listener_pass_enabled e s0 s' E) as [_ Hsub].
        etransitivity; [apply (IH _ _ H)|].
        assert (Eom : omap offered (e :: envs)
                      = from_option (fun c => [c]) [] (offered e)
                        ++ omap offered envs)
          by (simpl; destruct (offered e); reflexivity).
        rewrite Eom, app_assoc. apply sublist_app; [exact Hsub | reflexivity]. }
    exact (G envs listener_init s H).
  - intros HF.
    destruct (listener_run_steady envs listener_init s HF H) as (H1 & H2 & H3).
    auto.
Qed.

Lemma listener_follows_flag_witness :
  exists s,
    listener_run listener_passes listener_init = Some s
    /\ started (ltrace s) = [1%nat; 3%nat]
    /\ switches (ltrace s) = [ListenerOn; ListenerPaused; ListenerOn].
Proof.
  eexists. split; [reflexivity|].
  destruct (listener_follows_flag listener_passes _ eq_refl) as [_ H].
  destruct H as (_ & H2 & H3); [repeat constructor|].
  split; [exact H2 | exact H3].
Defined.

(* ===================================================================== *)
(** ** The battery label: written by one thread, read back by another *)

Lemma numeral_char_plain c :
  numeral_char c = true ->
  is_space c = false /\ Ascii.eqb c "%" = false /\ Ascii.eqb c "+" = false.
Proof.
  destruct c as [[] [] [] [] [] [] [] []]; vm_compute; intros H;
    try discriminate; repeat split.
Qed.

Lemma uint_chars d :
  all_chars numeral_char (DecimalString.NilEmpty.string_of_uint d) = true.
Proof. induction d; simpl; try rewrite IHd; reflexivity. Qed.

Lemma py_str_int_chars n :
  all_chars numeral_char (py_str_int n) = true /\ py_str_int n <> EmptyString.
Proof.
  unfold py_str_int. destruct n as [|p|p]; simpl.
  - split; [reflexivity | discriminate].
  - pose proof (DecimalPos.Unsigned.to_uint_nonnil p) as Hn.
    unfold DecimalString.NilZero.string_of_uint.
    destruct (Pos.to_uint p) eqn:E; try contradiction;
      (split; [apply (uint_chars (_ u)) | discriminate]).
  - split; [|discriminate].
    pose proof (DecimalPos.Unsigned.to_uint_nonnil p) as Hn.
    unfold DecimalString.NilZero.string_of_uint.
    change (all_chars numeral_char
              (match Pos.to_uint p with
               | Decimal.Nil => "0"%string
               | _ => DecimalString.NilEmpty.string_of_uint (Pos.to_uint p)
               end) = true).
    destruct (Pos.to_uint p) eqn:E; try contradiction; apply (uint_chars (_ u)).
Qed.

Lemma before_percent_numeral s rest :
  all_chars numeral_char s = true ->
  before_percent (s ++ String "%" rest) = s.
Proof.
  induction s as [|c s IH]; simpl; intros H; [reflexivity|].
  apply andb_true_iff in H as [Hc Hs].
  destruct (numeral_char_plain c Hc) as (_ & -> & _).
  rewrite (IH Hs). reflexivity.
Qed.

Lemma rstrip_numeral s : all_chars numeral_char s = true -> rstrip s = s.
Proof.
  induction s as [|c s IH]; simpl; intros H; [reflexivity|].
  apply andb_true_iff in H as [Hc Hs]. rewrite (IH Hs).
  destruct (numeral_char_plain c Hc) as (-> & _). destruct s; reflexivity.
Qed.

Lemma py_int_str n : py_int (py_str_int n) = Some n.
Proof.
  destruct (py_str_int_chars n) as [Hc Hne].
  unfold py_int. rewrite (rstrip_numeral _ Hc).
  destruct (py_str_int n) as [|c s] eqn:E; [contradiction|].
  simpl in Hc. apply andb_true_iff in Hc as [Hc _].
  destruct (numeral_char_plain c Hc) as (Hsp & _ & Hplus).
  simpl lstrip. rewrite Hsp.
  transitivity (option_map Z.of_int
                  (DecimalString.NilZero.int_of_string (String c s))).
  { clear -Hplus. destruct c as [[] [] [] [] [] [] [] []]; try reflexivity.
    vm_compute in Hplus. discriminate. }
  rewrite <- E. unfold py_str_int.
  rewrite DecimalString.NilZero.isi.
  - simpl. rewrite DecimalZ.of_to. reflexivity.
  - destruct n; simpl; try discriminate.
    intros H; inversion H as [H1].
    exact (DecimalPos.Unsigned.to_uint_nonnil _ H1).
  - destruct n; simpl; try discriminate.
    intros H; inversion H as [H1].
    exact (DecimalPos.Unsigned.to_uint_nonnil _ H1).
Qed.

(** X17.  The GUI recovers the battery level exactly from the label.  For
    every level the battery thread writes, the refresh reads that level
    back, shows green from 50 up, yellow from 25 up and red below, and
    rewrites the label with the mode; a further refresh of the rewritten
    label, before the battery thread writes again, still reads the same
    level.  The start-up label reads as 100. *)
Theorem refresh_battery_reads_level (level : Z) (listening listening' : bool) :
  exists v v',
    refresh_battery (batt_text level) listening = Some v
    /\ refresh_battery (batt v) listening' = Some v'
    /\ pb_value v = level /\ pb_value v' = level
    /\ bar_colour v = (if 50 <=? level then Green
                       else if 25 <=? level then Yellow else Red)
    /\ bar_colour v' = bar_colour v
    /\ (exists v0, refresh_battery batt_init listening = Some v0
                   /\ pb_value v0 = 100).
Proof.
  destruct (py_str_int_chars level) as [Hc _].
  assert (E1 : before_percent (batt_text level) = py_str_int level).
  { unfold batt_text.
    change (py_str_int level ++ "%")%string
      with (py_str_int level ++ String "%" EmptyString)%string.
    apply before_percent_numeral. exact Hc. }
  assert (E2 : forall l : bool,
             before_percent
               (py_str_int level ++ "% ("
                ++ (if l then "RUNNING" else "CHARGING") ++ ")")%string
             = py_str_int level).
  { intros l.
    change (py_str_int level ++ "% ("
            ++ (if l then "RUNNING" else "CHARGING") ++ ")")%string
      with (py_str_int level
            ++ String "%" (" (" ++ (if l then "RUNNING" else "CHARGING")
                           ++ ")"))%string.
    apply before_percent_numeral. exact Hc. }
  unfold refresh_battery. rewrite E1, py_int_str.
  eexists. eexists. split; [reflexivity|]. simpl batt.
  rewrite E2, py_int_str. split; [reflexivity|]. simpl.
  repeat split. eexists. split; reflexivity.
Qed.

(* ===================================================================== *)
(** ** The sensor table under every interleaving *)

Lemma deque_append_length {A} (d : list A) x :
  (length d <= MAXLEN)%nat ->
  length (deque_append MAXLEN d x)
  = (if (length d =? MAXLEN)%nat then MAXLEN else S (length d)).
Proof.
  intros Hd. rewrite (deque_append_fifo MAXLEN d x) by (unfold MAXLEN in *; lia).
  rewrite length_app. simpl.
  destruct (Nat.ltb_spec (length d) MAXLEN), (Nat.eqb_spec (length d) MAXLEN);
    try lia.
  destruct d; simpl in *; [unfold MAXLEN in *; lia | lia].
Qed.

Lemma add_good self tt hh ts :
  length (t self) = length (h self) ->
  (length (t self) <= 10)%nat ->
  good_stats (add self tt hh ts).1
  /\ (length (t self) = 10%nat -> length (t (add self tt hh ts).1) = 10%nat).
Proof.
  intros Heq Hle. unfold good_stats. simpl.
  rewrite !deque_append_length by (unfold MAXLEN; lia).
  rewrite <- Heq. unfold MAXLEN.
  destruct (Nat.eqb_spec (length (t self)) 10); repeat split; lia.
Qed.

Lemma act_table a s :
  map_Forall (fun _ st => good_stats st) (sensors s.2) ->
  map_Forall (fun _ st => good_stats st) (sensors (act a s).2)
  /\ (forall sid st, sensors s.2 !! sid = Some st -> length (t st) = 10%nat ->
        exists st', sensors (act a s).2 !! sid = Some st'
                    /\ length (t st') = 10%nat /\ length (h st') = 10%nat).
Proof.
  intros Hg. destruct a as [sid r|]; simpl.
  - destruct (record_reading_effect sid (temp_of r) (hum_of r) r.2 s.2)
      as (Hs & _). rewrite Hs.
    set (old := default Stats_init (sensors s.2 !! sid)).
    assert (Hold : length (t old) = length (h old) /\ (length (t old) <= 10)%nat).
    { unfold old. destruct (sensors s.2 !! sid) as [st|] eqn:E; simpl.
      - destruct (Hg sid st E) as (H1 & H2 & _). split; [assumption | lia].
      - split; [reflexivity | lia]. }
    destruct Hold as [H1 H2].
    destruct (add_good old (temp_of r) (hum_of r) r.2 H1 H2) as [Hgood Hfull].
    split.
    + apply map_Forall_insert_2; assumption.
    + intros sid' st Hst Hlen.
      destruct (decide (sid = sid')) as [->|Hne].
      * eexists. rewrite lookup_insert_eq. split; [reflexivity|].
        assert (Eo : old = st) by (unfold old; rewrite Hst; reflexivity).
        destruct Hgood as (Hg1 & _). fold old. rewrite <- Hg1.
        rewrite <- Eo in Hlen. split; apply Hfull; exact Hlen.
      * exists st. rewrite lookup_insert_ne by assumption.
        destruct (Hg sid' st Hst) as (Hg1 & _).
        split; [assumption | split; [assumption | congruence]].
  - assert (E : sensors (battery_tick s.1 s.2).2 = sensors s.2).
    { destruct (battery_tick_world s.1 s.2) as [E|[E|E]]; rewrite E;
        try reflexivity.
      apply (flush_queue_frame
               (log_put LogBatteryFull
                  (set_charging_event false (set_listening_event true s.2)))). }
    rewrite E. split; [assumption|].
    intros sid st Hst Hlen. exists st.
    destruct (Hg sid st Hst) as (Hg1 & _).
    split; [assumption | split; [assumption | congruence]].
Qed.

Lemma run_table (acts : list action) (tape : list bool) (times : list string) :
  let w := (run acts (boot tape times)).2 in
  map_Forall (fun _ st => good_stats st) (sensors w)
  /\ Forall (from_full_window w) (built w).
Proof.
  induction acts as [|a acts IH] using rev_ind.
  - split; [apply map_Forall_empty | constructor].
  - rewrite run_snoc. cbv zeta in *.
    set (s := run acts (boot tape times)) in *.
    destruct IH as [Hg Hf].
    destruct (act_table a s Hg) as [Hg' Hkeep].
    split; [exact Hg'|].
    assert (Hold : Forall (from_full_window (act a s).2) (built s.2)).
    { eapply Forall_impl; [exact Hf|].
      intros p (st & Hst & Ht & _). apply (Hkeep _ st Hst Ht). }
    destruct a as [sid r|]; simpl in *.
    + destruct (record_reading_effect sid (temp_of r) (hum_of r) r.2 s.2)
        as (Hs & now & Hb).
      rewrite Hb. apply Forall_app. split; [exact Hold|].
      destruct (Nat.eqb_spec
                  (length (t (add (default Stats_init (sensors s.2 !! sid))
                                (temp_of r) (hum_of r) r.2).1)) 10)
        as [Hfull|_]; [|constructor].
      constructor; [|constructor]. unfold from_full_window. simpl sensor_id.
      eexists. rewrite Hs, lookup_insert_eq. split; [reflexivity|].
      split; [exact Hfull|].
      destruct (Hg' sid _ ltac:(rewrite Hs; apply lookup_insert_eq))
        as (Heq & _).
      rewrite <- Heq. exact Hfull.
    + assert (E : built (battery_tick s.1 s.2).2 = built s.2).
      { destruct (battery_tick_world s.1 s.2) as [E|[E|E]]; rewrite E;
          try reflexivity.
        apply (flush_queue_frame
                 (log_put LogBatteryFull
                    (set_charging_event false (set_listening_event true s.2)))). }
      rewrite E. exact Hold.
Qed.

(** X18.  The table is always in step with the readings: after any
    interleaving of readings and battery ticks, every entry of the sensor
    table has two windows of the same length, between one and ten items, and
    averages equal to the sum of the current window over its length. *)
Theorem run_table_in_step (acts : list action) (tape : list bool)
    (times : list string) :
  map_Forall (fun _ st => good_stats st)
             (sensors (run acts (boot tape times)).2).
Proof.
  induction acts as [|a acts IH] using rev_ind.
  - apply map_Forall_empty.
  - rewrite run_snoc. apply act_table. exact IH.
Qed.

(** X19.  No summary without ten readings: after any interleaving of
    readings and battery ticks, every packet ever built belongs to a sensor
    whose entry in the table has both windows full. *)
Theorem run_packets_from_full_windows (acts : list action) (tape : list bool)
    (times : list string) :
  let w := (run acts (boot tape times)).2 in
  Forall (from_full_window w) (built w).
Proof.
  intros w. unfold w.
  destruct (run_table acts tape times) as [_ H]. exact H.
Qed.

(* ===================================================================== *)
(** ** Rounding in the packet, and the worker's [sid] *)

Lemma round_half_even_error x :
  (x - (1 # 2) <= inject_Z (round_half_even x))%Q
  /\ (inject_Z (round_half_even x) <= x + (1 # 2))%Q.
Proof.
  unfold round_half_even.
  pose proof (Qfloor_le x) as Hlo. pose proof (Qlt_floor x) as Hhi.
  rewrite inject_Z_plus in Hhi.
  change (inject_Z 1) with 1%Q in Hhi.
  destruct (Qcompare (x - inject_Z (Qfloor x)) (1 # 2)) eqn:E.
  - apply Qeq_alt in E.
    destruct (Z.even (Qfloor x)); rewrite ?inject_Z_plus;
      change (inject_Z 1) with 1%Q; split; lra.
  - apply Qlt_alt in E. split; lra.
  - apply Qgt_alt in E. rewrite inject_Z_plus. change (inject_Z 1) with 1%Q.
    split; lra.
Qed.

Lemma round2_error x :
  (x - (1 # 200) <= round2 x)%Q /\ (round2 x <= x + (1 # 200))%Q.
Proof.
  destruct (round_half_even_error (x * 100)) as [H1 H2].
  assert (E : (round2 x == inject_Z (round_half_even (x * 100)) / 100)%Q)
    by (unfold round2; apply Qmake_Qdiv).
  rewrite E. split.
  - apply Qle_shift_div_l; [reflexivity | lra].
  - apply Qle_shift_div_r; [reflexivity | lra].
Qed.

Lemma round_half_even_inject z : round_half_even (inject_Z z) = z.
Proof.
  unfold round_half_even. rewrite Qfloor_Z.
  assert (E : Qcompare (inject_Z z - inject_Z z) (1 # 2) = Lt)
    by (apply Qlt_alt;
        setoid_replace (inject_Z z - inject_Z z)%Q with 0%Q
          using relation Qeq by ring;
        reflexivity).
  rewrite E. reflexivity.
Qed.

Lemma round2_idempotent x : round2 (round2 x) = round2 x.
Proof.
  assert (E : (round2 x == inject_Z (round_half_even (x * 100)) / 100)%Q)
    by (unfold round2; apply Qmake_Qdiv).
  transitivity
    (Qmake (round_half_even (inject_Z (round_half_even (x * 100)))) 100).
  - unfold round2 at 1. f_equal. apply round_half_even_comp.
    rewrite E. field.
  - rewrite round_half_even_inject. reflexivity.
Qed.

(** X20.  The averages in a packet are the given averages rounded to two
    decimals: each is a multiple of 1/100 that differs from the value [send]
    was called with by at most 0.005, and rounding it again changes nothing;
    the sensor id and the anomaly count are carried unchanged. *)
Theorem send_rounds_to_two_decimals (sid : string) (a b : Q) (n : nat)
    (w : world) :
  exists p,
    built (send sid a b n w) = built w ++ [p]
    /\ sensor_id p = sid /\ anomaly_count p = n
    /\ ((a - (1 # 200) <= avg_temp p)%Q /\ (avg_temp p <= a + (1 # 200))%Q)
    /\ ((b - (1 # 200) <= avg_hum p)%Q /\ (avg_hum p <= b + (1 # 200))%Q)
    /\ (Qden (avg_temp p) = 100%positive /\ Qden (avg_hum p) = 100%positive)
    /\ (round2 (avg_temp p) = avg_temp p /\ round2 (avg_hum p) = avg_hum p).
Proof.
  exists (packet_of sid a b n w).
  pose proof (send_effect sid a b n w) as (Hb & _).
  split; [exact Hb|]. simpl.
  repeat split; try apply round2_error; apply round2_idempotent.
Qed.

Lemma last_map_Some {A} (l : list A) (d : A) :
  exists y, List.last (map Some l) (Some d) = Some y.
Proof.
  revert d. induction l as [|x l IH]; intros d; [eauto|].
  simpl map. rewrite last_cons_default. apply IH.
Qed.

Lemma last_Some_default {A} (l : list A) (d : A) (alt : option A) :
  match List.last (map Some l) None with Some s => Some s | None => Some d end
  = match List.last (map Some l) (Some d) with Some s => Some s | None => alt end.
Proof.
  destruct l as [|x l]; [reflexivity|].
  simpl map. rewrite !last_cons_default.
  destruct (last_map_Some l x) as [y ->]. reflexivity.
Qed.

Section WorkerSid.

Variable json_loads : list byte -> option json.
Variable float_of_string : string -> option Q.

Lemma try_block_sid sid line :
  (try_block json_loads float_of_string sid line).1
  = match line_sid json_loads line with
    | Some s => Some s
    | None => sid
    end.
Proof.
  unfold try_block, line_sid, mbind, option_bind.
  destruct (json_loads line) as [j|]; [|reflexivity].
  destruct (getitem j "sensor_id") as [s|]; [|reflexivity].
  destruct (getitem j "temperature") as [tv|]; [|reflexivity].
  destruct (py_float float_of_string tv); [|reflexivity].
  destruct (getitem j "humidity") as [hv|]; [|reflexivity].
  destruct (py_float float_of_string hv); [|reflexivity].
  destruct (getitem j "timestamp"); reflexivity.
Qed.

(** X21.  The worker remembers the last sensor id it has seen, also from
    lines it dropped: after any lines, and whatever the callback, its [sid]
    is the [sensor_id] value of the last line that parsed and had that
    field, or what it was before when there was no such line.  This is the
    id the "disconnected" entry names. *)
Theorem handle_lines_sid
    (send_avg : string -> Q -> Q -> nat -> world -> world)
    (lines : list (list byte)) (sid sid' : option json) (w w' : world) :
  handle_lines json_loads float_of_string send_avg sid lines w
    = Some (sid', w') ->
  sid' = match List.last (map Some (omap (line_sid json_loads) lines)) None with
         | Some s => Some s
         | None => sid
         end.
Proof.
  revert sid w. induction lines as [|l lines IH]; intros sid w H.
  - inversion H. reflexivity.
  - assert (Eo : omap (line_sid json_loads) (l :: lines)
                 = match line_sid json_loads l with
                   | Some y => y :: omap (line_sid json_loads) lines
                   | None => omap (line_sid json_loads) lines
                   end) by reflexivity.
    rewrite Eo. clear Eo.
    remember (omap (line_sid json_loads) lines) as rest eqn:Er.
    assert (Hnext : exists w1,
               handle_lines json_loads float_of_string send_avg
                 (try_block json_loads float_of_string sid l).1 lines w1
               = Some (sid', w')).
    { simpl in H. unfold handle_line in H.
      destruct (try_block json_loads float_of_string sid l)
        as [sid1 [[[[s tv] hv] ts]|]]; simpl; [|eauto].
      destruct s; try discriminate. destruct ts; try discriminate. eauto. }
    destruct Hnext as [w1 Hnext]. apply IH in Hnext.
    rewrite Hnext, try_block_sid.
    destruct (line_sid json_loads l) as [sl|]; [|reflexivity].
    simpl map. rewrite last_cons_default.
    apply last_Some_default.
Qed.

End WorkerSid.

Lemma handle_lines_sid_witness :
  handle_lines demo_loads demo_float send None [[x67]; [x7b]; [x6e]]
    (main_world [] [])
  = Some (Some (JStr "s1"),
          record_reading send "s1" 21 (inject_Z 40) C1_ts (main_world [] []))
  /\ Some (JStr "s1")
     = match List.last
               (map Some (omap (line_sid demo_loads) [[x67]; [x7b]; [x6e]]))
               None with
       | Some s => Some s
       | None => None
       end.
Proof.
  split; [reflexivity|].
  exact (handle_lines_sid demo_loads demo_float send [[x67]; [x7b]; [x6e]]
           None _ (main_world [] []) _ eq_refl).
Defined.

(* ===================================================================== *)
(** ** Summaries of one sensor among the traffic of others *)

Lemma feed_all_cons r rs w :
  feed_all (r :: rs) w =
  feed_all rs (record_reading send r.1 (temp_of r.2) (hum_of r.2) r.2.2 w).
Proof. reflexivity. Qed.

(** X22.  The summaries of a sensor do not depend on the traffic of the
    other sensors.  Whatever readings of other sensors are interleaved, the
    packets built for [sid] are, in order and up to their timestamps, those
    its own readings cause: one for each of its readings that leaves its
    window full, carrying the rounded averages and the anomaly count of its
    entry at that moment. *)
Theorem feed_all_summaries_per_sensor (sid : string) (rs : list tagged)
    (w : world) :
  map call_of (of_sensor sid (built (feed_all rs w)))
  = map call_of (of_sensor sid (built w))
    ++ map rounded
         (summaries sid (default Stats_init (sensors w !! sid))
                    (readings_of sid rs)).
Proof.
  revert w. induction rs as [|r rs IH]; intros w.
  - simpl. rewrite app_nil_r. reflexivity.
  - rewrite feed_all_cons, IH. clear IH.
    destruct (record_reading_effect r.1 (temp_of r.2) (hum_of r.2) r.2.2 w)
      as (Hs & now & Hb).
    set (st0 := default Stats_init (sensors w !! r.1)) in *.
    set (st' := (add st0 (temp_of r.2) (hum_of r.2) r.2.2).1) in *.
    rewrite Hs, Hb. clear Hs Hb.
    assert (Er : readings_of sid (r :: rs)
                 = (if String.eqb r.1 sid then [r.2] else [])
                   ++ readings_of sid rs).
    { unfold readings_of. simpl. destruct (String.eqb r.1 sid); reflexivity. }
    rewrite Er. clear Er. unfold of_sensor.
    rewrite List.filter_app, map_app, <- app_assoc. f_equal.
    destruct (String.eqb_spec r.1 sid) as [E|E].
    + rewrite <- E, lookup_insert_eq.
      change (default Stats_init (Some st')) with st'.
      change (summaries r.1 (default Stats_init (sensors w !! r.1))
                ([r.2] ++ readings_of r.1 rs))
        with ((if Nat.eqb (length (t st')) 10
               then [(r.1, avg_t st', avg_h st', anom st')] else [])
              ++ summaries r.1 st' (readings_of r.1 rs)).
      rewrite map_app. f_equal.
      destruct (Nat.eqb (length (t st')) 10); [|reflexivity].
      cbn [List.filter sensor_id]. rewrite String.eqb_refl. reflexivity.
    + rewrite lookup_insert_ne by assumption.
      replace (List.filter (fun p => String.eqb (sensor_id p) sid)
                 (if Nat.eqb (length (t st')) 10
                  then [{| sensor_id := r.1; avg_temp := round2 (avg_t st');
                           avg_hum := round2 (avg_h st');
                           anomaly_count := anom st'; timestamp := now |}]
                  else []))
        with (@nil packet).
      * reflexivity.
      * destruct (Nat.eqb (length (t st')) 10); [|reflexivity].
        cbn [List.filter sensor_id]. apply String.eqb_neq in E. rewrite E.
        reflexivity.
Qed.
